(** * everybit/bitarray.c: a packed bit array with in-place rotation

    Shallow embedding of [src/everybit/bitarray.c] and the properties of
    its accessors, of the range reversal and of the rotation.

    Conventions of the embedding.
    - [size_t] and [uint64_t] are 64-bit unsigned integers: a value is a
      [Z] in [0, 2^64) and every operation that may leave that interval
      is followed by [to_size].  [ssize_t] is the signed 64-bit type
      ([to_ssize]); [uint8_t] is [to_uint8]; [char] is signed on the
      target (x86-64) and is a [Z] in [-128, 128) ([to_char]).
    - The integer promotions of C sign-extend a [char] to [int]; the
      two's-complement bit operations of [Z] ([Z.land], [Z.lor],
      [Z.lnot]) agree with the C ones on the promoted values.
    - [memcpy] between the buffer and a [uint64_t] is little-endian.
    - The buffer is a list of chars.  An access outside the buffer is
      the fault [OutOfBounds]; a failing [assert] is [AssertionFailed].
    - The two loops of the reversal recurse on an iteration budget that
      [bitarray_reverse_range] sets to their number of iterations;
      [OutOfFuel] would report a budget too small. *)

From Stdlib Require Import ZArith Lia Bool List.
From stdpp Require Import base list.

Local Open Scope Z_scope.

(** ** Machine integers *)

Definition to_size (x : Z) : Z := x mod 2 ^ 64.
Definition to_ssize (x : Z) : Z := (x + 2 ^ 63) mod 2 ^ 64 - 2 ^ 63.
Definition to_uint32 (x : Z) : Z := x mod 2 ^ 32.
Definition to_uint8 (x : Z) : Z := x mod 2 ^ 8.
Definition to_char (x : Z) : Z := (x + 2 ^ 7) mod 2 ^ 8 - 2 ^ 7.

Definition is_size (x : Z) : Prop := 0 <= x < 2 ^ 64.
Definition is_ssize (x : Z) : Prop := - 2 ^ 63 <= x < 2 ^ 63.
Definition is_char (x : Z) : Prop := - 2 ^ 7 <= x < 2 ^ 7.

(** ** Faults and the error monad *)

Inductive fault : Type :=
| AssertionFailed   (* an [assert] of the source does not hold *)
| OutOfBounds       (* a byte outside the buffer is read or written *)
| OutOfFuel.        (* a loop of the model ran out of its iteration budget *)

Inductive result (A : Type) : Type :=
| Ok (a : A)
| Fault (f : fault).

Arguments Ok {A} a.
Arguments Fault {A} f.

Definition bind {A B : Type} (c : result A) (k : A -> result B) : result B :=
  match c with
  | Ok a => k a
  | Fault f => Fault f
  end.

Notation "'let*' x ':=' c 'in' k" := (bind c (fun x => k))
  (at level 10, x name, c at level 100, k at level 200).

(** ** The data type *)

(** [struct bitarray].  The buffer pointer is modelled by the buffer. *)
Record bitarray : Type := mk_bitarray {
  bit_sz : Z;
  buf : list Z
}.

(** A well-formed bit array: [bit_sz] is a [size_t] and the buffer holds
    exactly [ceil (bit_sz / 8)] chars. *)
Definition wf_bitarray (ba : bitarray) : Prop :=
  0 <= bit_sz ba /\ bit_sz ba < 2 ^ 64 /\
  Z.of_nat (length (buf ba)) = (bit_sz ba + 7) / 8 /\
  Forall is_char (buf ba).

(** ** Raw buffer accesses *)

Definition load_byte (b : list Z) (i : Z) : result Z :=
  if 0 <=? i then
    match b !! Z.to_nat i with
    | Some c => Ok c
    | None => Fault OutOfBounds
    end
  else Fault OutOfBounds.

Definition store_byte (b : list Z) (i : Z) (c : Z) : result (list Z) :=
  if (0 <=? i) && (i <? Z.of_nat (length b)) then Ok (<[Z.to_nat i := c]> b)
  else Fault OutOfBounds.

(** [memcpy (&w, buf + i, n)]: the [n] bytes at [i], little-endian. *)
Fixpoint load_le (n : nat) (b : list Z) (i : Z) : result Z :=
  match n with
  | O => Ok 0
  | S n' =>
      let* c := load_byte b i in
      let* hi := load_le n' b (i + 1) in
      Ok (to_uint8 c + 2 ^ 8 * hi)
  end.

(** [memcpy (buf + i, &w, n)]. *)
Fixpoint store_le (n : nat) (b : list Z) (i : Z) (w : Z) : result (list Z) :=
  match n with
  | O => Ok b
  | S n' =>
      let* b' := store_byte b i (to_char w) in
      store_le n' b' (i + 1) (w / 2 ^ 8)
  end.

(** ** Construction and size *)

(** [bitarray_new], on the path where both allocations succeed: [calloc]
    gives a zeroed buffer of [(bit_sz + 7) / 8] bytes. *)
Definition bitarray_new (sz : Z) : bitarray :=
  {| bit_sz := sz; buf := replicate (Z.to_nat (to_size (sz + 7) / 8)) 0 |}.

Definition bitarray_get_bit_sz (ba : bitarray) : Z := bit_sz ba.

(** ** Single-bit accessors *)

(** [bitmask]: [1 << (bit_index % 8)], returned as a [char]. *)
Definition bitmask (bit_index : Z) : Z := to_char (Z.shiftl 1 (bit_index mod 8)).

Definition bitarray_get (ba : bitarray) (bit_index : Z) : result bool :=
  if bit_index <? bit_sz ba then
    let* c := load_byte (buf ba) (bit_index / 8) in
    Ok (negb (Z.land c (bitmask bit_index) =? 0))
  else Fault AssertionFailed.

Definition bitarray_set (ba : bitarray) (bit_index : Z) (value : bool)
  : result bitarray :=
  if bit_index <? bit_sz ba then
    let* c := load_byte (buf ba) (bit_index / 8) in
    let c' := to_char (Z.lor (Z.land c (Z.lnot (bitmask bit_index)))
                             (if value then bitmask bit_index else 0)) in
    let* b' := store_byte (buf ba) (bit_index / 8) c' in
    Ok {| bit_sz := bit_sz ba; buf := b' |}
  else Fault AssertionFailed.

(** ** 64-bit accessors *)

Definition bitarray_get_u64 (b : bitarray) (bit_index : Z) : result Z :=
  let byte_idx := bit_index / 8 in
  let bit_off := bit_index mod 8 in
  let* low_word := load_le 8 (buf b) byte_idx in
  if bit_off =? 0 then Ok low_word
  else
    let* c := load_byte (buf b) (byte_idx + 8) in
    let high_byte := to_uint8 c in
    Ok (Z.lor (Z.shiftr low_word bit_off)
              (to_size (Z.shiftl high_byte (64 - bit_off)))).

Definition bitarray_set_u64 (b : bitarray) (bit_index : Z) (value : Z)
  : result bitarray :=
  let byte_idx := bit_index / 8 in
  let bit_off := bit_index mod 8 in
  if bit_off =? 0 then
    let* b' := store_le 8 (buf b) byte_idx value in
    Ok {| bit_sz := bit_sz b; buf := b' |}
  else
    let* old_word := load_le 8 (buf b) byte_idx in
    let* c := load_byte (buf b) (byte_idx + 8) in
    let old_byte := to_uint8 c in
    let mask_lo := to_size (to_size (Z.shiftl 1 bit_off) - 1) in
    let mask_hi := to_uint8 (to_uint32 (Z.lnot (to_uint32 (to_uint32 (Z.shiftl 1 bit_off) - 1)))) in
    let new_word := Z.lor (Z.land old_word mask_lo) (to_size (Z.shiftl value bit_off)) in
    let new_byte := Z.lor (Z.land old_byte mask_hi)
                          (to_uint8 (Z.shiftr value (64 - bit_off))) in
    let* b1 := store_le 8 (buf b) byte_idx new_word in
    let* b2 := store_byte b1 (byte_idx + 8) (to_char new_byte) in
    Ok {| bit_sz := bit_sz b; buf := b2 |}.

(** ** Bit reversal of a word *)

(** [bitreverse n x]: the low [n] bits of [x] in the opposite order. *)
Fixpoint bitreverse (n : nat) (x : Z) : Z :=
  match n with
  | O => 0
  | S n' => Z.b2z (Z.testbit x 0) * 2 ^ Z.of_nat n' + bitreverse n' (x / 2)
  end.

(** The compiler builtin [__builtin_bitreverse64]: bit [j] of the result
    is bit [63 - j] of the argument. *)
Definition builtin_bitreverse64 (x : Z) : Z := bitreverse 64 x.

(** ** Range reversal *)

(** The loop [while (remaining >= 128)] of [bitarray_reverse_range]; the
    result is the array with the final [left], [right] and [remaining]. *)
Fixpoint reverse_bulk (fuel : nat) (ba : bitarray) (left right remaining : Z)
  : result (bitarray * (Z * Z * Z)) :=
  if 128 <=? remaining then
    match fuel with
    | O => Fault OutOfFuel
    | S fuel' =>
        let* left_val := bitarray_get_u64 ba left in
        let* right_val := bitarray_get_u64 ba (to_size (right - 64)) in
        let left_val := builtin_bitreverse64 left_val in
        let right_val := builtin_bitreverse64 right_val in
        let* ba1 := bitarray_set_u64 ba (to_size (right - 64)) left_val in
        let* ba2 := bitarray_set_u64 ba1 left right_val in
        reverse_bulk fuel' ba2 (to_size (left + 64)) (to_size (right - 64))
                     (to_size (remaining - 128))
    end
  else Ok (ba, (left, right, remaining)).

(** The loop [for (i = left; i < final_mid; ++i)]. *)
Fixpoint reverse_tail (fuel : nat) (ba : bitarray) (left right final_mid i : Z)
  : result bitarray :=
  if i <? final_mid then
    match fuel with
    | O => Fault OutOfFuel
    | S fuel' =>
        let* temp := bitarray_get ba i in
        let mirror_idx := to_size (to_size (right - 1) - to_size (i - left)) in
        let* m := bitarray_get ba mirror_idx in
        let* ba1 := bitarray_set ba i m in
        let* ba2 := bitarray_set ba1 mirror_idx temp in
        reverse_tail fuel' ba2 left right final_mid (to_size (i + 1))
    end
  else Ok ba.

Definition bitarray_reverse_range (ba : bitarray) (start length : Z)
  : result bitarray :=
  let left := start in
  let right := to_size (start + length) in
  let remaining := length in
  let* st := reverse_bulk (Z.to_nat (length / 128)) ba left right remaining in
  let '(ba1, (left', right', remaining')) := st in
  let final_mid := to_size (left' + remaining' / 2) in
  reverse_tail (Z.to_nat (remaining' / 2)) ba1 left' right' final_mid left'.

(** ** Rotation *)

(** The normalisation of [bit_right_amount] in [bitarray_rotate]; the
    operands of [%] are converted to [size_t], the result is stored in
    the [ssize_t] variable.  [-bit_right_amount] wraps at the least
    [ssize_t], as the target does. *)
Definition rotate_normalize (bit_length bit_right_amount : Z) : Z :=
  if bit_right_amount <? 0 then
    to_ssize (to_size (bit_length
                       - to_size (to_ssize (- bit_right_amount)) mod bit_length))
  else
    to_ssize (to_size bit_right_amount mod bit_length).

Definition bitarray_rotate (ba : bitarray)
  (bit_offset bit_length bit_right_amount : Z) : result bitarray :=
  if bit_length =? 0 then Ok ba
  else
    let bit_right_amount := rotate_normalize bit_length bit_right_amount in
    if bit_right_amount =? 0 then Ok ba
    else
      let split_idx := to_size (bit_length - to_size bit_right_amount) in
      let* ba1 := bitarray_reverse_range ba bit_offset split_idx in
      let* ba2 := bitarray_reverse_range ba1 (to_size (bit_offset + split_idx))
                                         (to_size bit_right_amount) in
      bitarray_reverse_range ba2 bit_offset bit_length.

(** ** Random fill *)

(** The loop of [bitarray_randfill]: [ptr[i] = rand ()] stores the four
    bytes of an [int32_t] at byte [4 * i] of the buffer, for the
    [int64_t] counter [i] while [i < bit_sz / 32 + 1] (compared as
    [size_t]).  The generator is a parameter: [rand i] is what the call
    of [rand] in iteration [i] returns. *)
Fixpoint randfill_loop (fuel : nat) (rand : Z -> Z) (ba : bitarray) (i : Z)
  : result bitarray :=
  if to_size i <? to_size (bit_sz ba / 32 + 1) then
    match fuel with
    | O => Fault OutOfFuel
    | S fuel' =>
        let* b' := store_le 4 (buf ba) (4 * i) (rand i) in
        randfill_loop fuel' rand {| bit_sz := bit_sz ba; buf := b' |}
                      (to_ssize (i + 1))
    end
  else Ok ba.

Definition bitarray_randfill (rand : Z -> Z) (ba : bitarray) : result bitarray :=
  randfill_loop (Z.to_nat (bit_sz ba / 32 + 1)) rand ba 0.

(** ** The portable modulo *)

(** [modulo]; [%] on [ssize_t] is the truncating remainder [Z.rem]. *)
Definition modulo (n m : Z) : result Z :=
  let signed_m := to_ssize m in
  if 0 <? signed_m then
    let res := Z.rem (to_ssize (Z.rem n signed_m + signed_m)) signed_m in
    if 0 <=? res then Ok (to_size res) else Fault AssertionFailed
  else Fault AssertionFailed.

(** ** Concrete arrays, for examples *)

(** The array of the given bits, built with [bitarray_new] and
    [bitarray_set] at the indices from [i] on; the indices are valid, so
    that no [bitarray_set] faults. *)
Fixpoint fill_from (ba : bitarray) (i : Z) (bits : list bool) : bitarray :=
  match bits with
  | [] => ba
  | v :: bits' =>
      match bitarray_set ba i v with
      | Ok ba' => fill_from ba' (i + 1) bits'
      | Fault _ => ba
      end
  end.

Definition of_bits (bits : list bool) : bitarray :=
  fill_from (bitarray_new (Z.of_nat (length bits))) 0 bits.

Fixpoint read_from (ba : bitarray) (i : Z) (n : nat) : list (result bool) :=
  match n with
  | O => []
  | S n' => bitarray_get ba i :: read_from ba (i + 1) n'
  end.

Definition to_bits (ba : bitarray) : list (result bool) :=
  read_from ba 0 (Z.to_nat (bit_sz ba)).

Definition bits_of_result (r : result bitarray) : list (result bool) :=
  match r with
  | Ok ba => to_bits ba
  | Fault f => [Fault f]
  end.

(** ** The abstract view: the bit at an index of the buffer *)

(** Bit [i] lives in byte [i / 8], at position [i mod 8] from the least
    significant bit. *)
Definition bit_of (b : list Z) (i : Z) : bool :=
  match b !! Z.to_nat (i / 8) with
  | Some c => Z.testbit c (i mod 8)
  | None => false
  end.

(** ** Auxiliary definitions of the proofs *)

(** All chars and all bit positions of a byte, for facts checked by
    enumeration. *)
Definition chars : list Z := seqZ (-128) 256.
Definition offsets : list Z := seqZ 0 8.

Definition mask_test_ok (c k : Z) : bool :=
  Bool.eqb (negb (Z.land c (to_char (Z.shiftl 1 k)) =? 0)) (Z.testbit c k).

(** The bytes touched by a 64-bit access at [idx] are inside a buffer of
    [len] bytes: eight bytes from [idx / 8], and a ninth when [idx] is
    not a multiple of 8. *)
Definition u64_in_bounds (len idx : Z) : Prop :=
  idx / 8 + (if idx mod 8 =? 0 then 8 else 9) <= len.

(** The amount by which [bitarray_rotate] rotates to the right, as an
    unsigned number. *)
Definition right_shift (len r : Z) : Z :=
  if r <? 0 then len - (- r) mod len else r mod len.

(** Well-formedness as a boolean, for concrete arrays. *)
Definition is_charb (c : Z) : bool := (-128 <=? c) && (c <? 128).

Definition wf_bitarrayb (ba : bitarray) : bool :=
  (0 <=? bit_sz ba) && (bit_sz ba <? 2 ^ 64)
  && (Z.of_nat (length (buf ba)) =? (bit_sz ba + 7) / 8)
  && forallb is_charb (buf ba).

(** The arrays of the examples: the eight bits [10110010], and 200 bits
    all set but bit 150. *)
Definition example8 : bitarray :=
  of_bits [true; false; true; true; false; false; true; false].

Definition example200 : bitarray :=
  of_bits (replicate 150 true ++ false :: replicate 49 true).

(** Case analysis on every integer comparison of the goal. *)
Ltac case_bools :=
  repeat match goal with
    | |- context [?a <=? ?b] => destruct (Z.leb_spec a b)
    | |- context [?a <? ?b] => destruct (Z.ltb_spec a b)
    | |- context [?a =? ?b] => destruct (Z.eqb_spec a b)
    end;
  simpl.

Ltac concrete :=
  vm_compute; repeat split; first [reflexivity | discriminate].

(** * Properties *)

(** ** Machine integers *)

Lemma to_char_is_char (x : Z) : is_char (to_char x).
Proof.
  unfold is_char, to_char.
  pose proof (Z.mod_pos_bound (x + 2 ^ 7) (2 ^ 8) ltac:(lia)). lia.
Qed.

Lemma to_char_mod (x : Z) : to_char x mod 2 ^ 8 = x mod 2 ^ 8.
Proof.
  unfold to_char. rewrite Zminus_mod_idemp_l. f_equal. lia.
Qed.

Lemma testbit_low_mod (x : Z) (j : Z) :
  0 <= j < 8 -> Z.testbit (x mod 2 ^ 8) j = Z.testbit x j.
Proof. intros Hj. apply Z.mod_pow2_bits_low. lia. Qed.

Lemma testbit_to_char (x j : Z) :
  0 <= j < 8 -> Z.testbit (to_char x) j = Z.testbit x j.
Proof.
  intros Hj. rewrite <- (testbit_low_mod (to_char x)) by lia.
  rewrite to_char_mod. apply testbit_low_mod. lia.
Qed.

Lemma testbit_to_uint8 (x j : Z) :
  0 <= j -> Z.testbit (to_uint8 x) j = (j <? 8) && Z.testbit x j.
Proof. intros Hj. unfold to_uint8. apply Z.testbit_mod_pow2. lia. Qed.

Lemma testbit_to_size (x j : Z) :
  0 <= j -> Z.testbit (to_size x) j = (j <? 64) && Z.testbit x j.
Proof. intros Hj. unfold to_size. apply Z.testbit_mod_pow2. lia. Qed.

Lemma to_size_small (x : Z) : is_size x -> to_size x = x.
Proof. intros H. apply Z.mod_small. exact H. Qed.

Lemma to_size_is_size (x : Z) : is_size (to_size x).
Proof. apply Z.mod_pos_bound. lia. Qed.

Lemma to_ssize_small (x : Z) : is_ssize x -> to_ssize x = x.
Proof.
  unfold is_ssize, to_ssize. intros H.
  rewrite Z.mod_small; lia.
Qed.

(** A value below [2^n] has no bit at or above [n]. *)
Lemma testbit_high (n x j : Z) :
  0 <= n -> 0 <= x < 2 ^ n -> n <= j -> Z.testbit x j = false.
Proof.
  intros Hn Hx Hj. rewrite <- (Z.mod_small x (2 ^ n)) by lia.
  apply Z.mod_pow2_bits_high. lia.
Qed.

(** ** Raw buffer accesses *)

Lemma load_byte_Ok (b : list Z) (i c : Z) :
  load_byte b i = Ok c <-> 0 <= i /\ b !! Z.to_nat i = Some c.
Proof.
  unfold load_byte. destruct (Z.leb_spec 0 i) as [Hi | Hi].
  - destruct (b !! Z.to_nat i) as [c' |]; split.
    + intros [= ->]. auto.
    + intros [_ [= ->]]. reflexivity.
    + discriminate.
    + intros [_ [=]].
  - split; [discriminate | lia].
Qed.

Lemma load_byte_in_bounds (b : list Z) (i : Z) :
  0 <= i < Z.of_nat (length b) -> exists c, load_byte b i = Ok c.
Proof.
  intros Hi. destruct (lookup_lt_is_Some_2 b (Z.to_nat i)) as [c Hc]; [lia |].
  exists c. apply load_byte_Ok. split; [lia | exact Hc].
Qed.

Lemma load_byte_fault (b : list Z) (i : Z) (f : fault) :
  load_byte b i = Fault f -> ~ (0 <= i < Z.of_nat (length b)).
Proof.
  intros Hf Hi. destruct (load_byte_in_bounds b i Hi) as [c Hc]. congruence.
Qed.

Lemma store_byte_Ok (b b' : list Z) (i c : Z) :
  store_byte b i c = Ok b' <->
  0 <= i < Z.of_nat (length b) /\ b' = <[Z.to_nat i := c]> b.
Proof.
  unfold store_byte.
  destruct (Z.leb_spec 0 i), (Z.ltb_spec i (Z.of_nat (length b))); simpl;
    split; try discriminate; try lia.
  - intros [= <-]. auto.
  - intros [_ ->]. reflexivity.
Qed.

Lemma bit_of_insert (b : list Z) (i c k : Z) :
  0 <= i < Z.of_nat (length b) -> 0 <= k ->
  bit_of (<[Z.to_nat i := c]> b) k =
  if k / 8 =? i then Z.testbit c (k mod 8) else bit_of b k.
Proof.
  intros Hi Hk. unfold bit_of.
  destruct (Z.eqb_spec (k / 8) i) as [-> | Hne].
  - rewrite list_lookup_insert_eq by lia. reflexivity.
  - rewrite list_lookup_insert_ne; [reflexivity |].
    assert (0 <= k / 8) by (apply Z.div_pos; lia). lia.
Qed.

Lemma bit_of_byte (b : list Z) (i c j : Z) :
  0 <= i -> b !! Z.to_nat i = Some c -> 0 <= j < 8 ->
  bit_of b (8 * i + j) = Z.testbit c j.
Proof.
  intros Hi Hc Hj. unfold bit_of.
  replace ((8 * i + j) / 8) with i by (Z.div_mod_to_equations; lia).
  replace ((8 * i + j) mod 8) with j by (Z.div_mod_to_equations; lia).
  rewrite Hc. reflexivity.
Qed.

(** ** Single-bit accessors *)

Lemma mask_test_table :
  forallb (fun c => forallb (mask_test_ok c) offsets) chars = true.
Proof. vm_compute. reflexivity. Qed.

(** Testing a char against [bitmask] reads the bit of that position;
    the sign extension of both operands does not disturb the test. *)
Lemma mask_test (c i : Z) :
  is_char c -> negb (Z.land c (bitmask i) =? 0) = Z.testbit c (i mod 8).
Proof.
  intros Hc. unfold bitmask.
  assert (Hk : 0 <= i mod 8 < 8) by (apply Z.mod_pos_bound; lia).
  pose proof mask_test_table as T.
  rewrite forallb_forall in T.
  specialize (T c). rewrite forallb_forall in T.
  apply Bool.eqb_prop. apply T.
  - apply list_elem_of_In, elem_of_seqZ. unfold is_char in Hc. lia.
  - apply list_elem_of_In, elem_of_seqZ. lia.
Qed.

Lemma testbit_bitmask (i j : Z) :
  0 <= j < 8 -> Z.testbit (bitmask i) j = (i mod 8 =? j).
Proof.
  intros Hj. unfold bitmask.
  assert (Hk : 0 <= i mod 8 < 8) by (apply Z.mod_pos_bound; lia).
  rewrite testbit_to_char by lia.
  rewrite Z.shiftl_1_l. apply Z.pow2_bits_eqb. lia.
Qed.

(** The char stored by [bitarray_set]: position [i mod 8] holds the new
    value, the seven other positions keep theirs. *)
Lemma testbit_set_char (c i j : Z) (v : bool) :
  0 <= j < 8 ->
  Z.testbit (to_char (Z.lor (Z.land c (Z.lnot (bitmask i)))
                            (if v then bitmask i else 0))) j =
  if i mod 8 =? j then v else Z.testbit c j.
Proof.
  intros Hj. rewrite testbit_to_char by lia.
  rewrite Z.lor_spec, Z.land_spec, Z.lnot_spec by lia.
  assert (Hm : Z.testbit (if v then bitmask i else 0) j = v && (i mod 8 =? j)).
  { destruct v; simpl; [apply testbit_bitmask; lia | apply Z.testbit_0_l]. }
  rewrite Hm, testbit_bitmask by lia.
  destruct (i mod 8 =? j), v, (Z.testbit c j); reflexivity.
Qed.

Lemma byte_index_in_bounds (ba : bitarray) (i : Z) :
  wf_bitarray ba -> 0 <= i < bit_sz ba ->
  0 <= i / 8 < Z.of_nat (length (buf ba)).
Proof.
  intros (H0 & H1 & Hlen & _) Hi. rewrite Hlen.
  Z.div_mod_to_equations. lia.
Qed.

Lemma wf_lookup_is_char (ba : bitarray) (n : nat) (c : Z) :
  wf_bitarray ba -> buf ba !! n = Some c -> is_char c.
Proof.
  intros (_ & _ & _ & Hall) Hc.
  rewrite Forall_lookup in Hall. exact (Hall n c Hc).
Qed.

Lemma bitarray_get_spec (ba : bitarray) (i : Z) :
  wf_bitarray ba -> 0 <= i < bit_sz ba ->
  bitarray_get ba i = Ok (bit_of (buf ba) i).
Proof.
  intros Hwf Hi. unfold bitarray_get.
  destruct (Z.ltb_spec i (bit_sz ba)); [| lia].
  destruct (load_byte_in_bounds (buf ba) (i / 8)) as [c Hc].
  { apply byte_index_in_bounds; assumption. }
  rewrite Hc. simpl. apply load_byte_Ok in Hc as [_ Hc].
  unfold bit_of. rewrite Hc. f_equal.
  apply mask_test. eapply wf_lookup_is_char; eassumption.
Qed.

Lemma bitarray_set_spec (ba : bitarray) (i : Z) (v : bool) :
  wf_bitarray ba -> 0 <= i < bit_sz ba ->
  exists ba',
    bitarray_set ba i v = Ok ba' /\
    wf_bitarray ba' /\ bit_sz ba' = bit_sz ba /\
    forall k, 0 <= k ->
      bit_of (buf ba') k = if k =? i then v else bit_of (buf ba) k.
Proof.
  intros Hwf Hi. unfold bitarray_set.
  destruct (Z.ltb_spec i (bit_sz ba)); [| lia].
  pose proof (byte_index_in_bounds ba i Hwf Hi) as Hb.
  destruct (load_byte_in_bounds (buf ba) (i / 8) Hb) as [c Hc].
  rewrite Hc. simpl.
  set (c' := to_char _).
  assert (Hs : store_byte (buf ba) (i / 8) c' = Ok (<[Z.to_nat (i / 8) := c']> (buf ba))).
  { apply store_byte_Ok. auto. }
  rewrite Hs. simpl. eexists. split; [reflexivity |].
  destruct Hwf as (H0 & H1 & Hlen & Hall).
  split; [| split; [reflexivity |]].
  - unfold wf_bitarray; simpl. rewrite length_insert.
    repeat split; try assumption.
    apply Forall_insert; [assumption | apply to_char_is_char].
  - intros k Hk. simpl. rewrite bit_of_insert by assumption.
    apply load_byte_Ok in Hc as [_ Hc].
    destruct (Z.eqb_spec k i) as [-> | Hne].
    + rewrite Z.eqb_refl. unfold c'.
      rewrite testbit_set_char by (apply Z.mod_pos_bound; lia).
      rewrite Z.eqb_refl. reflexivity.
    + destruct (Z.eqb_spec (k / 8) (i / 8)) as [He | Hne']; [| reflexivity].
      unfold c'. rewrite testbit_set_char by (apply Z.mod_pos_bound; lia).
      destruct (Z.eqb_spec (i mod 8) (k mod 8)) as [Hm | Hm].
      * exfalso. apply Hne.
        rewrite (Z.div_mod k 8), (Z.div_mod i 8) by lia. lia.
      * unfold bit_of. rewrite He, Hc. reflexivity.
Qed.

(** ** Little-endian words in the buffer *)

Lemma load_le_in_bounds (n : nat) (b : list Z) (i : Z) :
  0 <= i -> i + Z.of_nat n <= Z.of_nat (length b) ->
  exists w, load_le n b i = Ok w.
Proof.
  revert i. induction n as [| n IH]; intros i Hi Hlen; simpl.
  - eexists; reflexivity.
  - destruct (load_byte_in_bounds b i) as [c Hc]; [lia |].
    destruct (IH (i + 1)) as [hi Hhi]; [lia | lia |].
    rewrite Hc, Hhi. simpl. eexists; reflexivity.
Qed.

Lemma load_le_bits (n : nat) (b : list Z) (i w : Z) :
  0 <= i -> load_le n b i = Ok w ->
  0 <= w < 2 ^ (8 * Z.of_nat n) /\
  forall j, 0 <= j < 8 * Z.of_nat n -> Z.testbit w j = bit_of b (8 * i + j).
Proof.
  revert i w. induction n as [| n IH]; intros i w Hi H; simpl in H.
  - injection H as <-. split; [simpl; lia | intros j Hj; lia].
  - destruct (load_byte b i) as [c |] eqn:Hc; [| discriminate]. simpl in H.
    destruct (load_le n b (i + 1)) as [hi |] eqn:Hhi; [| discriminate].
    simpl in H. injection H as <-.
    apply load_byte_Ok in Hc as [_ Hc].
    destruct (IH (i + 1) hi ltac:(lia) Hhi) as [Hb Hbits].
    assert (Hu : 0 <= to_uint8 c < 2 ^ 8) by (apply Z.mod_pos_bound; lia).
    assert (Hmod : (to_uint8 c + 2 ^ 8 * hi) mod 2 ^ 8 = to_uint8 c).
    { rewrite Z.mul_comm, Z_mod_plus_full. apply Z.mod_small; lia. }
    assert (Hdiv : (to_uint8 c + 2 ^ 8 * hi) / 2 ^ 8 = hi).
    { rewrite Z.mul_comm, Z_div_plus_full by lia.
      rewrite Z.div_small; lia. }
    split.
    + replace (8 * Z.of_nat (S n)) with (8 + 8 * Z.of_nat n) by lia.
      rewrite Z.pow_add_r by lia. nia.
    + intros j Hj. destruct (Z.lt_ge_cases j 8) as [Hlt | Hge].
      * rewrite <- (testbit_low_mod _ j), Hmod by lia.
        rewrite testbit_to_uint8 by lia.
        rewrite (bit_of_byte b i c j) by (assumption || lia).
        destruct (Z.ltb_spec j 8); [reflexivity | lia].
      * replace j with ((j - 8) + 8) at 1 by lia.
        rewrite <- Z.div_pow2_bits by lia. rewrite Hdiv.
        rewrite Hbits by lia. f_equal. lia.
Qed.

Lemma store_le_spec (n : nat) (b : list Z) (i w : Z) :
  0 <= i -> i + Z.of_nat n <= Z.of_nat (length b) ->
  exists b',
    store_le n b i w = Ok b' /\ length b' = length b /\
    (Forall is_char b -> Forall is_char b') /\
    forall k, 0 <= k ->
      bit_of b' k =
      if (8 * i <=? k) && (k <? 8 * (i + Z.of_nat n))
      then Z.testbit w (k - 8 * i) else bit_of b k.
Proof.
  revert b i w. induction n as [| n IH]; intros b i w Hi Hlen; simpl.
  - exists b. repeat split; auto. intros k Hk.
    destruct (Z.leb_spec (8 * i) k), (Z.ltb_spec k (8 * (i + Z.of_nat 0)));
      simpl; try reflexivity; lia.
  - assert (Hs : store_byte b i (to_char w) = Ok (<[Z.to_nat i := to_char w]> b)).
    { apply store_byte_Ok. split; [lia | reflexivity]. }
    rewrite Hs. simpl.
    destruct (IH (<[Z.to_nat i := to_char w]> b) (i + 1) (w / 2 ^ 8))
      as (b' & Hb' & Hl & Hc & Hbits); [lia | rewrite length_insert; lia |].
    exists b'. split; [exact Hb' |]. split; [rewrite Hl; apply length_insert |].
    split.
    + intros Hall. apply Hc. apply Forall_insert; [exact Hall | apply to_char_is_char].
    + intros k Hk. rewrite Hbits by lia. rewrite bit_of_insert by lia.
      assert (Hkm : 0 <= k mod 8 < 8) by (apply Z.mod_pos_bound; lia).
      pose proof (Z.div_mod k 8 ltac:(lia)) as Hdm.
      case_bools; try lia;
        first [ reflexivity
              | rewrite Z.div_pow2_bits by lia; f_equal; lia
              | rewrite testbit_to_char by lia; f_equal; lia ].
Qed.

(** ** 64-bit accessors *)

Lemma is_size_bits (x : Z) :
  (forall j, 64 <= j -> Z.testbit x j = false) -> is_size x.
Proof.
  intros H. assert (Hx : to_size x = x).
  { apply Z.bits_inj'. intros j Hj. rewrite testbit_to_size by lia.
    destruct (Z.ltb_spec j 64); simpl; [reflexivity |].
    symmetry. apply H. lia. }
  rewrite <- Hx. apply to_size_is_size.
Qed.

Lemma is_size_testbit_high (x j : Z) :
  is_size x -> 64 <= j -> Z.testbit x j = false.
Proof. intros Hx Hj. apply (testbit_high 64); [lia | exact Hx | exact Hj]. Qed.

Lemma u64_in_bounds_bits (len idx : Z) :
  0 <= idx -> (u64_in_bounds len idx <-> idx + 64 <= 8 * len).
Proof.
  intros Hidx. unfold u64_in_bounds.
  pose proof (Z.div_mod idx 8 ltac:(lia)).
  pose proof (Z.mod_pos_bound idx 8 ltac:(lia)).
  destruct (Z.eqb_spec (idx mod 8) 0); lia.
Qed.

Lemma bitarray_get_u64_spec (ba : bitarray) (idx : Z) :
  0 <= idx -> idx + 64 <= 8 * Z.of_nat (length (buf ba)) ->
  exists w,
    bitarray_get_u64 ba idx = Ok w /\ is_size w /\
    forall j, 0 <= j < 64 -> Z.testbit w j = bit_of (buf ba) (idx + j).
Proof.
  intros Hidx Hlen. unfold bitarray_get_u64. cbv zeta.
  pose proof (Z.div_mod idx 8 ltac:(lia)) as Hdm.
  pose proof (Z.mod_pos_bound idx 8 ltac:(lia)) as Hoff.
  assert (Hbi : 0 <= idx / 8) by (apply Z.div_pos; lia).
  destruct (load_le_in_bounds 8 (buf ba) (idx / 8)) as [low Hlow]; [lia | lia |].
  rewrite Hlow. simpl.
  destruct (load_le_bits 8 (buf ba) (idx / 8) low Hbi Hlow) as [Hlb Hbits].
  change (8 * Z.of_nat 8) with 64 in *.
  destruct (Z.eqb_spec (idx mod 8) 0) as [Hz | Hnz].
  - exists low. split; [reflexivity |]. split; [exact Hlb |].
    intros j Hj. rewrite Hbits by lia. f_equal. lia.
  - destruct (load_byte_in_bounds (buf ba) (idx / 8 + 8)) as [c Hc]; [lia |].
    rewrite Hc. simpl. apply load_byte_Ok in Hc as [_ Hc].
    eexists. split; [reflexivity |]. split.
    + apply is_size_bits. intros j Hj.
      rewrite Z.lor_spec, Z.shiftr_spec, testbit_to_size by lia.
      rewrite (is_size_testbit_high low) by (assumption || lia).
      destruct (Z.ltb_spec j 64); [lia | reflexivity].
    + intros j Hj.
      rewrite Z.lor_spec, Z.shiftr_spec, testbit_to_size, Z.shiftl_spec by lia.
      destruct (Z.ltb_spec j 64); [| lia]. simpl.
      destruct (Z.lt_ge_cases (j + idx mod 8) 64) as [Hlo | Hhi].
      * rewrite Hbits by lia.
        rewrite (Z.testbit_neg_r (to_uint8 c)) by lia.
        rewrite orb_false_r. f_equal. lia.
      * rewrite (is_size_testbit_high low) by (assumption || lia). simpl.
        rewrite testbit_to_uint8 by lia.
        destruct (Z.ltb_spec (j - (64 - idx mod 8)) 8); [| lia]. simpl.
        rewrite <- (bit_of_byte (buf ba) (idx / 8 + 8) c) by (lia || assumption).
        f_equal. lia.
Qed.

Lemma mask_lo_ones (off : Z) :
  0 < off < 8 -> to_size (to_size (Z.shiftl 1 off) - 1) = Z.ones off.
Proof.
  intros H.
  assert (off = 1 \/ off = 2 \/ off = 3 \/ off = 4 \/ off = 5 \/ off = 6 \/ off = 7)
    as Hc by lia.
  repeat (destruct Hc as [-> | Hc]; [reflexivity |]). subst. reflexivity.
Qed.

Lemma mask_hi_bits (off j : Z) :
  0 < off < 8 -> 0 <= j ->
  Z.testbit (to_uint8 (to_uint32 (Z.lnot
      (to_uint32 (to_uint32 (Z.shiftl 1 off) - 1))))) j =
  (off <=? j) && (j <? 8).
Proof.
  intros H Hj.
  assert (Ho : to_uint32 (to_uint32 (Z.shiftl 1 off) - 1) = Z.ones off).
  { assert (off = 1 \/ off = 2 \/ off = 3 \/ off = 4 \/ off = 5 \/ off = 6 \/ off = 7)
      as Hc by lia.
    repeat (destruct Hc as [-> | Hc]; [reflexivity |]). subst. reflexivity. }
  rewrite Ho, testbit_to_uint8 by lia. unfold to_uint32.
  rewrite Z.testbit_mod_pow2, Z.lnot_spec, Z.testbit_ones_nonneg by lia.
  case_bools; try lia; reflexivity.
Qed.

Lemma bitarray_set_u64_spec (ba : bitarray) (idx v : Z) :
  0 <= idx -> idx + 64 <= 8 * Z.of_nat (length (buf ba)) -> is_size v ->
  exists ba',
    bitarray_set_u64 ba idx v = Ok ba' /\
    bit_sz ba' = bit_sz ba /\ length (buf ba') = length (buf ba) /\
    (Forall is_char (buf ba) -> Forall is_char (buf ba')) /\
    forall k, 0 <= k ->
      bit_of (buf ba') k =
      if (idx <=? k) && (k <? idx + 64)
      then Z.testbit v (k - idx) else bit_of (buf ba) k.
Proof.
  intros Hidx Hlen Hv. unfold bitarray_set_u64. cbv zeta.
  pose proof (Z.div_mod idx 8 ltac:(lia)) as Hdm.
  pose proof (Z.mod_pos_bound idx 8 ltac:(lia)) as Hoff.
  assert (Hbi : 0 <= idx / 8) by (apply Z.div_pos; lia).
  destruct (Z.eqb_spec (idx mod 8) 0) as [Hz | Hnz].
  - destruct (store_le_spec 8 (buf ba) (idx / 8) v) as (b' & Hs & Hl & Hc & Hb);
      [lia | lia |].
    rewrite Hs. simpl. eexists. split; [reflexivity |]. simpl.
    repeat split; try assumption.
    intros k Hk. rewrite Hb by lia.
    change (Z.of_nat 8) with 8.
    case_bools; try lia; first [reflexivity | f_equal; lia].
  - destruct (load_le_in_bounds 8 (buf ba) (idx / 8)) as [old Hold]; [lia | lia |].
    rewrite Hold. cbn [bind].
    destruct (load_le_bits 8 (buf ba) (idx / 8) old Hbi Hold) as [Hob Hobits].
    change (8 * Z.of_nat 8) with 64 in *.
    destruct (load_byte_in_bounds (buf ba) (idx / 8 + 8)) as [c Hc]; [lia |].
    rewrite Hc. cbn [bind]. apply load_byte_Ok in Hc as [_ Hc].
    rewrite mask_lo_ones by lia.
    set (new_word := Z.lor (Z.land old (Z.ones (idx mod 8))) _).
    set (new_byte := Z.lor _ _).
    destruct (store_le_spec 8 (buf ba) (idx / 8) new_word)
      as (b1 & Hs1 & Hl1 & Hc1 & Hb1); [lia | lia |].
    rewrite Hs1. cbn [bind].
    assert (Hs2 : store_byte b1 (idx / 8 + 8) (to_char new_byte) =
                  Ok (<[Z.to_nat (idx / 8 + 8) := to_char new_byte]> b1)).
    { apply store_byte_Ok. split; [rewrite Hl1; lia | reflexivity]. }
    rewrite Hs2. cbn [bind]. eexists. split; [reflexivity |]. cbn [bit_sz buf].
    split; [reflexivity |]. split; [rewrite length_insert; exact Hl1 |].
    split.
    { intros Hall. apply Forall_insert; [auto | apply to_char_is_char]. }
    intros k Hk. rewrite bit_of_insert by (rewrite ?Hl1; lia).
    rewrite Hb1 by lia. change (Z.of_nat 8) with 8.
    pose proof (Z.div_mod k 8 ltac:(lia)) as Hkdm.
    pose proof (Z.mod_pos_bound k 8 ltac:(lia)) as Hkm.
    destruct (Z.eqb_spec (k / 8) (idx / 8 + 8)) as [He | Hne].
    + (* the ninth byte *)
      rewrite testbit_to_char by lia. unfold new_byte.
      rewrite Z.lor_spec, Z.land_spec, mask_hi_bits by lia.
      rewrite !testbit_to_uint8, Z.shiftr_spec by lia.
      destruct (Z.ltb_spec (k mod 8) 8); [| lia]. simpl.
      rewrite andb_true_r.
      destruct (Z.leb_spec (idx mod 8) (k mod 8)).
      * rewrite (is_size_testbit_high v) by (assumption || lia).
        rewrite andb_true_r, orb_false_r.
        case_bools; try lia.
        unfold bit_of. rewrite He, Hc. reflexivity.
      * simpl. rewrite andb_false_r. simpl. case_bools; try lia. f_equal. lia.
    + destruct (Z.leb_spec (8 * (idx / 8)) k), (Z.ltb_spec k (8 * (idx / 8 + 8)));
        simpl.
      * (* the eight bytes of the word *)
        unfold new_word.
        rewrite Z.lor_spec, Z.land_spec, testbit_to_size,
          Z.testbit_ones_nonneg, Z.shiftl_spec by lia.
        rewrite Hobits by lia.
        destruct (Z.ltb_spec (k - 8 * (idx / 8)) 64); [| lia].
        destruct (Z.ltb_spec (k - 8 * (idx / 8)) (idx mod 8)).
        -- rewrite (Z.testbit_neg_r v) by lia. simpl.
           rewrite andb_true_r, orb_false_r.
           case_bools; try lia. f_equal. lia.
        -- rewrite andb_false_r. simpl.
           case_bools; try lia. f_equal. lia.
      * case_bools; try lia; reflexivity.
      * case_bools; try lia; reflexivity.
      * case_bools; try lia; reflexivity.
Qed.

(** ** Bit reversal of a word *)

Lemma bitreverse_range (n : nat) (x : Z) :
  0 <= bitreverse n x < 2 ^ Z.of_nat n.
Proof.
  revert x. induction n as [| n IH]; intros x; cbn [bitreverse].
  - simpl. lia.
  - specialize (IH (x / 2)).
    rewrite Nat2Z.inj_succ, Z.pow_succ_r by lia.
    destruct (Z.testbit x 0); simpl Z.b2z; lia.
Qed.

Lemma bitreverse_bits (n : nat) (x j : Z) :
  0 <= j < Z.of_nat n ->
  Z.testbit (bitreverse n x) j = Z.testbit x (Z.of_nat n - 1 - j).
Proof.
  revert x j. induction n as [| n IH]; intros x j Hj; [lia |].
  cbn [bitreverse].
  pose proof (bitreverse_range n (x / 2)) as Hr.
  set (r := bitreverse n (x / 2)) in *.
  set (b := Z.b2z (Z.testbit x 0)).
  assert (Hp : 0 < 2 ^ Z.of_nat n) by (apply Z.pow_pos_nonneg; lia).
  destruct (Z.eq_dec j (Z.of_nat n)) as [-> | Hne].
  - replace (Z.of_nat (S n) - 1 - Z.of_nat n) with 0 by lia.
    replace (Z.of_nat n) with (0 + Z.of_nat n) at 2 by lia.
    rewrite <- Z.div_pow2_bits by lia.
    rewrite Z.add_comm, Z_div_plus_full by lia.
    rewrite (Z.div_small r) by lia. simpl Z.add.
    unfold b. rewrite Z.bit0_odd. apply Z.b2z_bit0.
  - rewrite <- (Z.mod_pow2_bits_low _ (Z.of_nat n)) by lia.
    rewrite Z.add_comm, Z_mod_plus_full, (Z.mod_small r) by lia.
    unfold r. rewrite IH by lia.
    change 2 with (2 ^ 1) at 1. rewrite Z.div_pow2_bits by lia.
    f_equal. lia.
Qed.

Lemma builtin_bitreverse64_is_size (x : Z) : is_size (builtin_bitreverse64 x).
Proof. exact (bitreverse_range 64 x). Qed.

Lemma builtin_bitreverse64_bits (x j : Z) :
  0 <= j < 64 -> Z.testbit (builtin_bitreverse64 x) j = Z.testbit x (63 - j).
Proof.
  intros Hj. unfold builtin_bitreverse64.
  rewrite bitreverse_bits by (change (Z.of_nat 64) with 64; lia).
  f_equal.
Qed.

(** ** Range reversal *)

Lemma wf_bits_in_buffer (ba : bitarray) :
  wf_bitarray ba -> bit_sz ba <= 8 * Z.of_nat (length (buf ba)).
Proof.
  intros (H0 & H1 & Hlen & _). rewrite Hlen. Z.div_mod_to_equations. lia.
Qed.

(** From index [i] on, the tail loop mirrors the bits of [i, left + right - i). *)
Lemma reverse_tail_spec (left right final_mid : Z) (fuel : nat) :
  forall (ba : bitarray) (i : Z),
    wf_bitarray ba ->
    0 <= left <= i -> i <= final_mid -> right <= bit_sz ba ->
    final_mid = left + (right - left) / 2 -> left <= right ->
    final_mid - i <= Z.of_nat fuel ->
    exists ba',
      reverse_tail fuel ba left right final_mid i = Ok ba' /\
      wf_bitarray ba' /\ bit_sz ba' = bit_sz ba /\
      forall k, 0 <= k ->
        bit_of (buf ba') k =
        if (i <=? k) && (k <? left + right - i)
        then bit_of (buf ba) (left + right - 1 - k) else bit_of (buf ba) k.
Proof.
  induction fuel as [| fuel IH]; intros ba i Hwf Hl Hi Hr Hmid Hlr Hfuel.
  - assert (i = final_mid) by lia. subst i.
    simpl. rewrite Z.ltb_irrefl. exists ba. split; [reflexivity |]. split; [exact Hwf |]. split; [reflexivity |].
    intros k Hk. case_bools; try reflexivity.
    f_equal. Z.div_mod_to_equations. lia.
  - simpl. destruct (Z.ltb_spec i final_mid) as [Hlt | Hge].
    + assert (H2 : 2 * final_mid <= left + right)
        by (subst final_mid; Z.div_mod_to_equations; lia).
      pose proof Hwf as (Hsz0 & Hsz1 & _).
      rewrite (to_size_small (right - 1)) by (unfold is_size; lia).
      rewrite (to_size_small (i - left)) by (unfold is_size; lia).
      rewrite (to_size_small (right - 1 - (i - left))) by (unfold is_size; lia).
      rewrite (to_size_small (i + 1)) by (unfold is_size; lia).
      set (m := right - 1 - (i - left)).
      rewrite (bitarray_get_spec ba i) by (assumption || lia). cbn [bind].
      rewrite (bitarray_get_spec ba m) by (assumption || lia). cbn [bind].
      destruct (bitarray_set_spec ba i (bit_of (buf ba) m) Hwf ltac:(lia))
        as (ba1 & Hs1 & Hwf1 & Hsz1' & Hb1).
      rewrite Hs1. cbn [bind].
      destruct (bitarray_set_spec ba1 m (bit_of (buf ba) i) Hwf1 ltac:(lia))
        as (ba2 & Hs2 & Hwf2 & Hsz2 & Hb2).
      rewrite Hs2. cbn [bind].
      destruct (IH ba2 (i + 1) Hwf2) as (ba' & Hr' & Hwf' & Hsz' & Hb');
        try lia.
      exists ba'. split; [exact Hr' |]. split; [exact Hwf' |].
      split; [lia |].
      intros k Hk. rewrite Hb' by lia. subst m.
      case_bools; try lia;
        rewrite Hb2, Hb1 by lia;
        case_bools; try lia; try reflexivity; f_equal; lia.
    + assert (i = final_mid) by lia. subst i.
      exists ba. split; [reflexivity |]. split; [exact Hwf |]. split; [reflexivity |].
      intros k Hk. case_bools; try reflexivity.
      f_equal. Z.div_mod_to_equations. lia.
Qed.

Lemma set_u64_wf (ba ba' : bitarray) :
  wf_bitarray ba -> bit_sz ba' = bit_sz ba ->
  length (buf ba') = length (buf ba) ->
  (Forall is_char (buf ba) -> Forall is_char (buf ba')) ->
  wf_bitarray ba'.
Proof.
  intros (H0 & H1 & Hlen & Hall) Hsz Hl Hc.
  unfold wf_bitarray. rewrite Hsz, Hl. auto.
Qed.

(** The bulk loop mirrors the outer blocks [left, left') and
    [right', right) onto each other and leaves [left', right') for the
    tail loop. *)
Lemma reverse_bulk_spec (fuel : nat) :
  forall (ba : bitarray) (left right remaining : Z),
    wf_bitarray ba -> 0 <= left -> right <= bit_sz ba ->
    remaining = right - left -> 0 <= remaining ->
    remaining / 128 <= Z.of_nat fuel ->
    exists ba1 left' right' remaining',
      reverse_bulk fuel ba left right remaining =
        Ok (ba1, (left', right', remaining')) /\
      wf_bitarray ba1 /\ bit_sz ba1 = bit_sz ba /\
      left <= left' /\ left' + right' = left + right /\
      remaining' = right' - left' /\ 0 <= remaining' < 128 /\
      forall k, 0 <= k ->
        bit_of (buf ba1) k =
        if ((left <=? k) && (k <? left')) || ((right' <=? k) && (k <? right))
        then bit_of (buf ba) (left + right - 1 - k) else bit_of (buf ba) k.
Proof.
  induction fuel as [| fuel IH]; intros ba left right remaining
    Hwf Hl Hr Hrem Hpos Hfuel.
  - assert (remaining < 128) by (Z.div_mod_to_equations; lia).
    simpl. destruct (Z.leb_spec 128 remaining); [lia |].
    exists ba, left, right, remaining. split; [reflexivity |].
    split; [exact Hwf |]. repeat (split; [lia |]).
    intros k Hk. case_bools; try lia; reflexivity.
  - simpl. destruct (Z.leb_spec 128 remaining) as [Hbig | Hsmall].
    + pose proof (wf_bits_in_buffer ba Hwf) as Hbuf.
      pose proof Hwf as (Hsz0 & Hsz1 & _).
      rewrite (to_size_small (right - 64)) by (unfold is_size; lia).
      rewrite (to_size_small (left + 64)) by (unfold is_size; lia).
      rewrite (to_size_small (remaining - 128)) by (unfold is_size; lia).
      destruct (bitarray_get_u64_spec ba left) as (lv & Hlv & Hlvs & Hlvb);
        [lia | lia |].
      destruct (bitarray_get_u64_spec ba (right - 64)) as (rv & Hrv & Hrvs & Hrvb);
        [lia | lia |].
      rewrite Hlv, Hrv. cbn [bind].
      destruct (bitarray_set_u64_spec ba (right - 64) (builtin_bitreverse64 lv))
        as (ba1 & Hs1 & Hsz1' & Hl1 & Hc1 & Hb1);
        [lia | lia | apply builtin_bitreverse64_is_size |].
      rewrite Hs1. cbn [bind].
      destruct (bitarray_set_u64_spec ba1 left (builtin_bitreverse64 rv))
        as (ba2 & Hs2 & Hsz2 & Hl2 & Hc2 & Hb2);
        [lia | lia | apply builtin_bitreverse64_is_size |].
      rewrite Hs2. cbn [bind].
      assert (Hwf1 : wf_bitarray ba1) by (eapply set_u64_wf; eassumption).
      assert (Hwf2 : wf_bitarray ba2) by (eapply set_u64_wf; eassumption).
      destruct (IH ba2 (left + 64) (right - 64) (remaining - 128) Hwf2)
        as (ba3 & l' & r' & rem' & Hr3 & Hwf3 & Hsz3 & Hll & Hsum & Hrem' & Hrng & Hb3);
        try lia.
      { Z.div_mod_to_equations. lia. }
      exists ba3, l', r', rem'. split; [exact Hr3 |]. split; [exact Hwf3 |].
      repeat (split; [lia |]).
      intros k Hk. rewrite Hb3 by lia.
      case_bools; try lia;
        rewrite Hb2, Hb1 by lia;
        case_bools; try lia; try reflexivity;
        rewrite ?builtin_bitreverse64_bits by lia;
        rewrite ?Hlvb, ?Hrvb by lia; f_equal; lia.
    + exists ba, left, right, remaining. split; [reflexivity |].
      split; [exact Hwf |]. repeat (split; [lia |]).
      intros k Hk. case_bools; try lia; reflexivity.
Qed.

(** [bitarray_reverse_range] returns, and mirrors [start, start + length). *)
Lemma bitarray_reverse_range_spec (ba : bitarray) (start length : Z) :
  wf_bitarray ba -> 0 <= start -> 0 <= length ->
  start + length <= bit_sz ba ->
  exists ba',
    bitarray_reverse_range ba start length = Ok ba' /\
    wf_bitarray ba' /\ bit_sz ba' = bit_sz ba /\
    forall k, 0 <= k ->
      bit_of (buf ba') k =
      if (start <=? k) && (k <? start + length)
      then bit_of (buf ba) (start + (start + length) - 1 - k)
      else bit_of (buf ba) k.
Proof.
  intros Hwf Hs Hlen Hend. unfold bitarray_reverse_range. cbv zeta.
  pose proof Hwf as (Hsz0 & Hsz1 & _).
  rewrite (to_size_small (start + length)) by (unfold is_size; lia).
  destruct (reverse_bulk_spec (Z.to_nat (length / 128)) ba start (start + length) length Hwf)
    as (ba1 & l' & r' & rem' & Hr1 & Hwf1 & Hsz1' & Hll & Hsum & Hrem' & Hrng & Hb1);
    try lia.
  rewrite Hr1. cbn [bind].
  assert (Hhalf : 0 <= rem' / 2 <= rem') by (Z.div_mod_to_equations; lia).
  rewrite (to_size_small (l' + rem' / 2)) by (unfold is_size; lia).
  destruct (reverse_tail_spec l' r' (l' + rem' / 2) (Z.to_nat (rem' / 2)) ba1 l' Hwf1)
    as (ba2 & Hr2 & Hwf2 & Hsz2 & Hb2); try lia.
  { subst rem'. reflexivity. }
  exists ba2. split; [exact Hr2 |]. split; [exact Hwf2 |]. split; [lia |].
  intros k Hk. rewrite Hb2 by lia.
  case_bools; try lia;
    rewrite Hb1 by lia;
    case_bools; try lia; try reflexivity; f_equal; lia.
Qed.

(** ** Rotation *)

Lemma to_size_to_ssize (x : Z) : to_size (to_ssize x) = to_size x.
Proof.
  unfold to_size, to_ssize. rewrite Zminus_mod_idemp_l. f_equal. lia.
Qed.

Lemma to_ssize_zero_iff (a : Z) : is_size a -> (to_ssize a = 0 <-> a = 0).
Proof.
  intros Ha. split.
  - intros H. rewrite <- (to_size_small a Ha), <- to_size_to_ssize, H.
    reflexivity.
  - intros ->. reflexivity.
Qed.

Lemma right_shift_range (len r : Z) :
  0 < len -> 0 <= right_shift len r <= len.
Proof.
  intros Hlen. unfold right_shift.
  pose proof (Z.mod_pos_bound (- r) len Hlen).
  pose proof (Z.mod_pos_bound r len Hlen).
  destruct (r <? 0); lia.
Qed.

Lemma right_shift_congr (len r i : Z) :
  0 < len -> (i - right_shift len r) mod len = (i - r) mod len.
Proof.
  intros Hlen. unfold right_shift. destruct (r <? 0).
  - replace (i - (len - (- r) mod len)) with ((i + (- r) mod len) + (-1) * len) by lia.
    rewrite Z_mod_plus_full, Zplus_mod_idemp_r. f_equal; lia.
  - apply Zminus_mod_idemp_r.
Qed.

Lemma rotate_normalize_unsigned (len r : Z) :
  0 < len -> is_size len -> is_ssize r ->
  to_size (rotate_normalize len r) = right_shift len r /\
  (rotate_normalize len r = 0 <-> right_shift len r = 0).
Proof.
  intros Hlen Hsz Hr. unfold is_size, is_ssize in *.
  pose proof (right_shift_range len r Hlen) as Hrange.
  unfold rotate_normalize, right_shift in *.
  destruct (Z.ltb_spec r 0) as [Hneg | Hpos].
  - rewrite (to_size_to_ssize (- r)), (to_size_small (- r)) by (unfold is_size; lia).
    rewrite to_size_to_ssize.
    assert (Ha : is_size (to_size (len - (- r) mod len))) by apply to_size_is_size.
    rewrite (to_size_small (to_size _)) by exact Ha.
    split.
    + apply to_size_small. unfold is_size. lia.
    + rewrite to_ssize_zero_iff by exact Ha.
      rewrite to_size_small by (unfold is_size; lia). reflexivity.
  - rewrite (to_size_small r) by (unfold is_size; lia).
    assert (Ha : is_size (r mod len)) by (unfold is_size; lia).
    rewrite to_size_to_ssize. split.
    + apply to_size_small, Ha.
    + apply to_ssize_zero_iff, Ha.
Qed.

(** [bitarray_rotate] returns, moves bit [offset + (i - r) mod length]
    to [offset + i] and touches nothing outside the range. *)
Lemma bitarray_rotate_spec (ba : bitarray) (offset length r : Z) :
  wf_bitarray ba -> 0 <= offset -> 0 <= length ->
  offset + length <= bit_sz ba -> is_ssize r ->
  exists ba',
    bitarray_rotate ba offset length r = Ok ba' /\
    wf_bitarray ba' /\ bit_sz ba' = bit_sz ba /\
    forall k, 0 <= k ->
      bit_of (buf ba') k =
      if (offset <=? k) && (k <? offset + length)
      then bit_of (buf ba) (offset + (k - offset - r) mod length)
      else bit_of (buf ba) k.
Proof.
  intros Hwf Hoff Hlen Hend Hr. unfold bitarray_rotate.
  pose proof Hwf as (Hsz0 & Hsz1 & _).
  destruct (Z.eqb_spec length 0) as [-> | Hnz].
  { exists ba. split; [reflexivity |]. split; [exact Hwf |]. split; [reflexivity |].
    intros k Hk. case_bools; try lia; reflexivity. }
  assert (Hlpos : 0 < length) by lia.
  assert (Hlsz : is_size length) by (unfold is_size; lia).
  destruct (rotate_normalize_unsigned length r Hlpos Hlsz Hr) as [Hu Hz].
  pose proof (right_shift_range length r Hlpos) as Hrange.
  pose proof (right_shift_congr length r) as Hcongr.
  cbv zeta. rewrite Hu.
  set (a := right_shift length r) in *.
  destruct (Z.eqb_spec (rotate_normalize length r) 0) as [He | Hne].
  { apply Hz in He.
    exists ba. split; [reflexivity |]. split; [exact Hwf |]. split; [reflexivity |].
    intros k Hk. case_bools; try reflexivity.
    f_equal. rewrite <- Hcongr, He by lia.
    rewrite Z.sub_0_r, Z.mod_small by lia. lia. }
  assert (Ha : 0 < a) by (rewrite Hz in Hne; lia).
  rewrite (to_size_small (length - a)) by (unfold is_size; lia).
  rewrite (to_size_small (offset + (length - a))) by (unfold is_size; lia).
  destruct (bitarray_reverse_range_spec ba offset (length - a) Hwf)
    as (ba1 & Hr1 & Hwf1 & Hs1 & Hb1); try lia.
  rewrite Hr1. cbn [bind].
  destruct (bitarray_reverse_range_spec ba1 (offset + (length - a)) a Hwf1)
    as (ba2 & Hr2 & Hwf2 & Hs2 & Hb2); try lia.
  rewrite Hr2. cbn [bind].
  destruct (bitarray_reverse_range_spec ba2 offset length Hwf2)
    as (ba3 & Hr3 & Hwf3 & Hs3 & Hb3); try lia.
  exists ba3. split; [exact Hr3 |]. split; [exact Hwf3 |]. split; [lia |].
  intros k Hk. rewrite Hb3 by lia.
  destruct (Z.leb_spec offset k), (Z.ltb_spec k (offset + length)); simpl;
    try (rewrite Hb2 by lia; case_bools; try lia;
         rewrite Hb1 by lia; case_bools; try lia; reflexivity).
  rewrite <- Hcongr by lia.
  rewrite Hb2 by lia.
  destruct (Z.lt_ge_cases (k - offset) a) as [Hlo | Hhi].
  - replace ((k - offset - a) mod length) with (k - offset - a + length).
    2:{ apply (Z.mod_unique _ _ (-1)); lia. }
    case_bools; try lia. rewrite Hb1 by lia.
    case_bools; try lia. f_equal. lia.
  - rewrite (Z.mod_small (k - offset - a)) by lia.
    case_bools; try lia. rewrite Hb1 by lia.
    case_bools; try lia. f_equal. lia.
Qed.

(** ** Extensionality: a well-formed array is determined by its bits *)

Lemma char_ext (c c' : Z) :
  is_char c -> is_char c' ->
  (forall j, 0 <= j < 8 -> Z.testbit c j = Z.testbit c' j) -> c = c'.
Proof.
  intros Hc Hc' Hbits.
  assert (Hm : c mod 2 ^ 8 = c' mod 2 ^ 8).
  { apply Z.bits_inj'. intros j Hj. rewrite !Z.testbit_mod_pow2 by lia.
    destruct (Z.ltb_spec j 8); simpl; [apply Hbits; lia | reflexivity]. }
  unfold is_char in *. change (2 ^ 7) with 128 in *. change (2 ^ 8) with 256 in *.
  Z.div_mod_to_equations. lia.
Qed.

Lemma bitarray_ext (ba ba' : bitarray) :
  wf_bitarray ba -> wf_bitarray ba' -> bit_sz ba' = bit_sz ba ->
  (forall k, 0 <= k -> bit_of (buf ba') k = bit_of (buf ba) k) ->
  ba' = ba.
Proof.
  intros Hwf Hwf' Hsz Hbits.
  assert (Hlen : length (buf ba') = length (buf ba)).
  { destruct Hwf as (_ & _ & Hl & _), Hwf' as (_ & _ & Hl' & _).
    rewrite Hsz in Hl'. lia. }
  destruct ba as [sz b], ba' as [sz' b']. simpl in *. subst sz'. f_equal.
  apply list_eq. intros n.
  destruct (b !! n) as [c |] eqn:Hc.
  - destruct (lookup_lt_is_Some_2 b' n) as [c' Hc'].
    { rewrite Hlen. eapply lookup_lt_Some; eassumption. }
    rewrite Hc'. f_equal.
    apply char_ext.
    + exact (wf_lookup_is_char _ n c' Hwf' Hc').
    + exact (wf_lookup_is_char _ n c Hwf Hc).
    + intros j Hj.
      rewrite <- (bit_of_byte b' (Z.of_nat n) c' j), <- (bit_of_byte b (Z.of_nat n) c j);
        rewrite ?Nat2Z.id; try assumption; try lia.
      apply Hbits. lia.
  - apply lookup_ge_None. rewrite Hlen. apply lookup_ge_None. exact Hc.
Qed.

(** ** Checking well-formedness by computation *)


Lemma is_charb_sound (c : Z) : is_charb c = true -> is_char c.
Proof.
  unfold is_charb, is_char. intros H. apply andb_true_iff in H as [H1 H2].
  apply Z.leb_le in H1. apply Z.ltb_lt in H2. change (2 ^ 7) with 128. lia.
Qed.

Lemma wf_bitarrayb_sound (ba : bitarray) :
  wf_bitarrayb ba = true -> wf_bitarray ba.
Proof.
  unfold wf_bitarrayb, wf_bitarray. intros H.
  repeat (apply andb_true_iff in H as [H ?]).
  repeat split.
  - apply Z.leb_le. assumption.
  - apply Z.ltb_lt. assumption.
  - apply Z.eqb_eq. assumption.
  - apply Forall_forall. intros c Hc. apply is_charb_sound.
    match goal with
    | Hf : forallb _ _ = true |- _ => rewrite forallb_forall in Hf; apply Hf
    end.
    apply list_elem_of_In. exact Hc.
Qed.

(** ** A wide access that returns stayed inside the buffer *)

Lemma load_le_S (n : nat) (b : list Z) (i : Z) :
  load_le (S n) b i =
  bind (load_byte b i) (fun c =>
    bind (load_le n b (i + 1)) (fun hi => Ok (to_uint8 c + 2 ^ 8 * hi))).
Proof. reflexivity. Qed.

Lemma store_le_S (n : nat) (b : list Z) (i w : Z) :
  store_le (S n) b i w =
  bind (store_byte b i (to_char w)) (fun b' => store_le n b' (i + 1) (w / 2 ^ 8)).
Proof. reflexivity. Qed.

Lemma load_le_Ok_in_bounds (n : nat) (b : list Z) (i w : Z) :
  0 <= i -> load_le (S n) b i = Ok w ->
  i + Z.of_nat (S n) <= Z.of_nat (length b).
Proof.
  revert i w. induction n as [| n IH]; intros i w Hi H;
    rewrite load_le_S in H;
    destruct (load_byte b i) as [c |] eqn:Hc; cbn [bind] in H;
    try discriminate;
    apply load_byte_Ok in Hc as [_ Hc]; apply lookup_lt_Some in Hc.
  - lia.
  - destruct (load_le (S n) b (i + 1)) as [hi |] eqn:Hhi;
      cbn [bind] in H; [| discriminate].
    apply IH in Hhi; lia.
Qed.

Lemma store_le_Ok_in_bounds (n : nat) (b b' : list Z) (i w : Z) :
  0 <= i -> store_le (S n) b i w = Ok b' ->
  i + Z.of_nat (S n) <= Z.of_nat (length b).
Proof.
  revert b i w. induction n as [| n IH]; intros b i w Hi H;
    rewrite store_le_S in H;
    destruct (store_byte b i (to_char w)) as [b1 |] eqn:Hs; cbn [bind] in H;
    try discriminate;
    apply store_byte_Ok in Hs as [Hin ->].
  - lia.
  - apply IH in H; [| lia].
    rewrite length_insert in H. lia.
Qed.

Lemma bitarray_get_u64_Ok_in_bounds (ba : bitarray) (idx w : Z) :
  0 <= idx -> bitarray_get_u64 ba idx = Ok w ->
  u64_in_bounds (Z.of_nat (length (buf ba))) idx.
Proof.
  intros Hidx H. unfold bitarray_get_u64 in H. cbv zeta in H.
  assert (Hbi : 0 <= idx / 8) by (apply Z.div_pos; lia).
  destruct (load_le 8 (buf ba) (idx / 8)) as [low |] eqn:Hlow;
    cbn [bind] in H; [| discriminate].
  apply load_le_Ok_in_bounds in Hlow; [| exact Hbi].
  unfold u64_in_bounds.
  destruct (idx mod 8 =? 0); [lia |].
  destruct (load_byte (buf ba) (idx / 8 + 8)) as [c |] eqn:Hc;
    cbn [bind] in H; [| discriminate].
  apply load_byte_Ok in Hc as [_ Hc]. apply lookup_lt_Some in Hc. lia.
Qed.

Lemma bitarray_set_u64_Ok_in_bounds (ba ba' : bitarray) (idx v : Z) :
  0 <= idx -> bitarray_set_u64 ba idx v = Ok ba' ->
  u64_in_bounds (Z.of_nat (length (buf ba))) idx.
Proof.
  intros Hidx H. unfold bitarray_set_u64 in H. cbv zeta in H.
  assert (Hbi : 0 <= idx / 8) by (apply Z.div_pos; lia).
  unfold u64_in_bounds. destruct (idx mod 8 =? 0).
  - destruct (store_le 8 (buf ba) (idx / 8) v) as [b' |] eqn:Hs;
      cbn [bind] in H; [| discriminate].
    apply store_le_Ok_in_bounds in Hs; lia.
  - destruct (load_le 8 (buf ba) (idx / 8)) as [low |] eqn:Hlow;
      cbn [bind] in H; [| discriminate].
    destruct (load_byte (buf ba) (idx / 8 + 8)) as [c |] eqn:Hc;
      cbn [bind] in H; [| discriminate].
    apply load_byte_Ok in Hc as [_ Hc]. apply lookup_lt_Some in Hc. lia.
Qed.

(** * The claims *)

(** C8.  For a valid index [i] and a boolean [v], [bitarray_set] returns,
    [bitarray_get] at [i] then returns [v], and [bitarray_get] at every
    other valid index returns what it returned before the set. *)
Theorem bitarray_set_get_roundtrip (ba : bitarray) (i : Z) (v : bool) :
  wf_bitarray ba -> 0 <= i < bit_sz ba ->
  exists ba',
    bitarray_set ba i v = Ok ba' /\
    bitarray_get ba' i = Ok v /\
    forall j, 0 <= j < bit_sz ba -> j <> i ->
      exists b, bitarray_get ba' j = Ok b /\ bitarray_get ba j = Ok b.
Proof.
  intros Hwf Hi.
  destruct (bitarray_set_spec ba i v Hwf Hi) as (ba' & Hs & Hwf' & Hsz & Hb).
  exists ba'. split; [exact Hs |]. split.
  - rewrite bitarray_get_spec by (assumption || lia).
    rewrite Hb, Z.eqb_refl by lia. reflexivity.
  - intros j Hj Hne. exists (bit_of (buf ba) j). split.
    + rewrite bitarray_get_spec by (assumption || lia).
      rewrite Hb by lia. destruct (Z.eqb_spec j i); [lia | reflexivity].
    + apply bitarray_get_spec; assumption.
Qed.

Lemma bitarray_set_get_roundtrip_witness :
  wf_bitarray example8 /\ 0 <= 5 < bit_sz example8 /\
  exists ba',
    bitarray_set example8 5 true = Ok ba' /\
    bitarray_get ba' 5 = Ok true /\
    forall j, 0 <= j < bit_sz example8 -> j <> 5 ->
      exists b, bitarray_get ba' j = Ok b /\ bitarray_get example8 j = Ok b.
Proof.
  assert (Hwf : wf_bitarray example8) by (apply wf_bitarrayb_sound; concrete).
  assert (Hi : 0 <= 5 < bit_sz example8) by concrete.
  split; [exact Hwf |]. split; [exact Hi |].
  exact (bitarray_set_get_roundtrip example8 5 true Hwf Hi).
Defined.

(** C5.  When every byte it touches is inside the buffer,
    [bitarray_get_u64] returns the 64-bit word whose bit [j], counted
    from the least significant one, is the bit of the array at
    [bit_index + j] (the one [bitarray_get] returns when that index is
    valid); for [bit_index mod 8 = 0] the word is the one read by the
    8-byte [memcpy] alone. *)
Theorem bitarray_get_u64_correct (ba : bitarray) (bit_index : Z) :
  0 <= bit_index ->
  u64_in_bounds (Z.of_nat (length (buf ba))) bit_index ->
  exists w,
    bitarray_get_u64 ba bit_index = Ok w /\ is_size w /\
    (forall j, 0 <= j < 64 ->
       Z.testbit w j = bit_of (buf ba) (bit_index + j)) /\
    (wf_bitarray ba ->
     forall j, 0 <= j < 64 -> bit_index + j < bit_sz ba ->
       bitarray_get ba (bit_index + j) = Ok (Z.testbit w j)) /\
    (bit_index mod 8 = 0 -> load_le 8 (buf ba) (bit_index / 8) = Ok w).
Proof.
  intros Hidx Hin. apply u64_in_bounds_bits in Hin; [| exact Hidx].
  destruct (bitarray_get_u64_spec ba bit_index Hidx Hin) as (w & Hw & Hsz & Hbits).
  exists w. split; [exact Hw |]. split; [exact Hsz |]. split; [exact Hbits |].
  split.
  - intros Hwf j Hj Hlt. rewrite bitarray_get_spec by (assumption || lia).
    rewrite Hbits by lia. reflexivity.
  - intros Hz. unfold bitarray_get_u64 in Hw. cbv zeta in Hw.
    rewrite Hz in Hw. change (0 =? 0) with true in Hw.
    destruct (load_le 8 (buf ba) (bit_index / 8)) as [low |];
      cbn [bind] in Hw; [exact Hw | discriminate].
Qed.

Lemma bitarray_get_u64_correct_witness :
  0 <= 13 /\ u64_in_bounds (Z.of_nat (length (buf example200))) 13 /\
  exists w,
    bitarray_get_u64 example200 13 = Ok w /\ is_size w /\
    (forall j, 0 <= j < 64 ->
       Z.testbit w j = bit_of (buf example200) (13 + j)) /\
    (wf_bitarray example200 ->
     forall j, 0 <= j < 64 -> 13 + j < bit_sz example200 ->
       bitarray_get example200 (13 + j) = Ok (Z.testbit w j)) /\
    (13 mod 8 = 0 -> load_le 8 (buf example200) (13 / 8) = Ok w).
Proof.
  assert (H0 : 0 <= 13) by concrete.
  assert (H1 : u64_in_bounds (Z.of_nat (length (buf example200))) 13) by concrete.
  split; [exact H0 |]. split; [exact H1 |].
  exact (bitarray_get_u64_correct example200 13 H0 H1).
Defined.

(** C6.  For an in-bounds [bit_index] and a 64-bit [value],
    [bitarray_set_u64] returns; afterwards the bits at
    [bit_index, bit_index + 64) are the bits of [value], so that
    [bitarray_get_u64] at [bit_index] returns [value], and every other
    bit of the buffer, the low [bit_index mod 8] bits of the first
    touched byte and the high bits of the ninth included, is the same as
    before; the size fields do not change. *)
Theorem bitarray_set_u64_correct (ba : bitarray) (bit_index value : Z) :
  0 <= bit_index ->
  u64_in_bounds (Z.of_nat (length (buf ba))) bit_index ->
  is_size value ->
  exists ba',
    bitarray_set_u64 ba bit_index value = Ok ba' /\
    bitarray_get_u64 ba' bit_index = Ok value /\
    (forall j, 0 <= j < 64 ->
       bit_of (buf ba') (bit_index + j) = Z.testbit value j) /\
    (forall k, 0 <= k -> ~ (bit_index <= k < bit_index + 64) ->
       bit_of (buf ba') k = bit_of (buf ba) k) /\
    bit_sz ba' = bit_sz ba /\ length (buf ba') = length (buf ba).
Proof.
  intros Hidx Hin Hv. apply u64_in_bounds_bits in Hin; [| exact Hidx].
  destruct (bitarray_set_u64_spec ba bit_index value Hidx Hin Hv)
    as (ba' & Hs & Hsz & Hlen & _ & Hb).
  exists ba'. split; [exact Hs |].
  assert (Hin' : bit_index + 64 <= 8 * Z.of_nat (length (buf ba')))
    by (rewrite Hlen; exact Hin).
  destruct (bitarray_get_u64_spec ba' bit_index Hidx Hin') as (w & Hw & Hwsz & Hwb).
  assert (Hin_range : forall j, 0 <= j < 64 ->
            bit_of (buf ba') (bit_index + j) = Z.testbit value j).
  { intros j Hj. rewrite Hb by lia. case_bools; try lia. f_equal. lia. }
  split; [| split; [exact Hin_range | split; [| split; assumption]]].
  - rewrite Hw. f_equal. apply Z.bits_inj'. intros j Hj.
    destruct (Z.lt_ge_cases j 64).
    + rewrite Hwb, Hin_range by lia. reflexivity.
    + rewrite !is_size_testbit_high by (assumption || lia). reflexivity.
  - intros k Hk Hout. rewrite Hb by lia. case_bools; try lia; reflexivity.
Qed.

Lemma bitarray_set_u64_correct_witness :
  0 <= 13 /\ u64_in_bounds (Z.of_nat (length (buf example200))) 13 /\
  is_size 81985529216486895 /\
  exists ba',
    bitarray_set_u64 example200 13 81985529216486895 = Ok ba' /\
    bitarray_get_u64 ba' 13 = Ok 81985529216486895 /\
    (forall j, 0 <= j < 64 ->
       bit_of (buf ba') (13 + j) = Z.testbit 81985529216486895 j) /\
    (forall k, 0 <= k -> ~ (13 <= k < 13 + 64) ->
       bit_of (buf ba') k = bit_of (buf example200) k) /\
    bit_sz ba' = bit_sz example200 /\
    length (buf ba') = length (buf example200).
Proof.
  assert (H0 : 0 <= 13) by concrete.
  assert (H1 : u64_in_bounds (Z.of_nat (length (buf example200))) 13) by concrete.
  assert (H2 : is_size 81985529216486895) by concrete.
  split; [exact H0 |]. split; [exact H1 |]. split; [exact H2 |].
  exact (bitarray_set_u64_correct example200 13 81985529216486895 H0 H1 H2).
Defined.

(** C2.  For a range inside the array, [bitarray_reverse_range] returns
    and reverses the range: the bit then read at [start + k] is the bit
    read before the call at [start + length - 1 - k], for every
    [0 <= k < length]; the bulk loop and the tail loop together do it. *)
Theorem bitarray_reverse_range_correct (ba : bitarray) (start length : Z) :
  wf_bitarray ba -> 0 <= start -> 0 <= length ->
  start + length <= bit_sz ba ->
  exists ba',
    bitarray_reverse_range ba start length = Ok ba' /\
    forall k, 0 <= k < length ->
      exists b,
        bitarray_get ba' (start + k) = Ok b /\
        bitarray_get ba (start + length - 1 - k) = Ok b.
Proof.
  intros Hwf Hs Hl Hend.
  destruct (bitarray_reverse_range_spec ba start length Hwf Hs Hl Hend)
    as (ba' & Hr & Hwf' & Hsz & Hb).
  exists ba'. split; [exact Hr |]. intros k Hk.
  exists (bit_of (buf ba) (start + length - 1 - k)). split.
  - rewrite bitarray_get_spec by (assumption || lia).
    rewrite Hb by lia. case_bools; try lia. f_equal. f_equal. lia.
  - apply bitarray_get_spec; [assumption | lia].
Qed.

Lemma bitarray_reverse_range_correct_witness :
  wf_bitarray example200 /\ 0 <= 10 /\ 0 <= 180 /\
  10 + 180 <= bit_sz example200 /\
  exists ba',
    bitarray_reverse_range example200 10 180 = Ok ba' /\
    forall k, 0 <= k < 180 ->
      exists b,
        bitarray_get ba' (10 + k) = Ok b /\
        bitarray_get example200 (10 + 180 - 1 - k) = Ok b.
Proof.
  assert (Hwf : wf_bitarray example200) by (apply wf_bitarrayb_sound; concrete).
  assert (H0 : 0 <= 10) by concrete.
  assert (H1 : 0 <= 180) by concrete.
  assert (H2 : 10 + 180 <= bit_sz example200) by concrete.
  repeat (split; [assumption |]).
  exact (bitarray_reverse_range_correct example200 10 180 Hwf H0 H1 H2).
Defined.

(** C3.  On an array whose buffer has exactly [ceil (bit_sz / 8)] bytes,
    the bulk loop of [bitarray_reverse_range] on a range inside the
    array returns: none of the reads and writes of [bitarray_get_u64]
    and [bitarray_set_u64], the ninth byte included, leaves the buffer,
    since an access outside it is the fault [OutOfBounds].  The bytes
    touched at the two bit indices of iteration [n], [start + 64 * n]
    and [start + length - 64 * (n + 1)], are inside the buffer. *)
Theorem reverse_bulk_in_bounds (ba : bitarray) (start length : Z) :
  wf_bitarray ba -> 0 <= start -> 0 <= length ->
  start + length <= bit_sz ba ->
  (exists st,
     reverse_bulk (Z.to_nat (length / 128)) ba start
                  (to_size (start + length)) length = Ok st) /\
  forall n, 0 <= n < length / 128 ->
    u64_in_bounds (Z.of_nat (List.length (buf ba))) (start + 64 * n) /\
    u64_in_bounds (Z.of_nat (List.length (buf ba)))
                  (start + length - 64 * (n + 1)).
Proof.
  intros Hwf Hs Hl Hend. pose proof Hwf as (Hsz0 & Hsz1 & _). split.
  - rewrite (to_size_small (start + length)) by (unfold is_size; lia).
    destruct (reverse_bulk_spec (Z.to_nat (length / 128)) ba start
                (start + length) length Hwf)
      as (ba1 & l' & r' & rem' & Hr1 & _); try lia.
    eexists. exact Hr1.
  - intros n Hn. pose proof (wf_bits_in_buffer ba Hwf) as Hbuf.
    assert (Hfit : 128 * (n + 1) <= length) by (Z.div_mod_to_equations; lia).
    split; apply u64_in_bounds_bits; lia.
Qed.

Lemma reverse_bulk_in_bounds_witness :
  wf_bitarray example200 /\ 0 <= 3 /\ 0 <= 197 /\
  3 + 197 <= bit_sz example200 /\
  (exists st,
     reverse_bulk (Z.to_nat (197 / 128)) example200 3
                  (to_size (3 + 197)) 197 = Ok st) /\
  forall n, 0 <= n < 197 / 128 ->
    u64_in_bounds (Z.of_nat (List.length (buf example200))) (3 + 64 * n) /\
    u64_in_bounds (Z.of_nat (List.length (buf example200)))
                  (3 + 197 - 64 * (n + 1)).
Proof.
  assert (Hwf : wf_bitarray example200) by (apply wf_bitarrayb_sound; concrete).
  assert (H0 : 0 <= 3) by concrete.
  assert (H1 : 0 <= 197) by concrete.
  assert (H2 : 3 + 197 <= bit_sz example200) by concrete.
  repeat (split; [assumption |]).
  exact (reverse_bulk_in_bounds example200 3 197 Hwf H0 H1 H2).
Defined.

(** C1.  For a range inside the array and a signed amount [r],
    [bitarray_rotate] returns and rotates the range right by [r]
    (left for a negative [r]): the bit then read at [offset + i] is the
    bit read before the call at [offset + (i - r) mod length], for
    every [0 <= i < length]. *)
Theorem bitarray_rotate_correct (ba : bitarray) (offset length r : Z) :
  wf_bitarray ba -> 0 <= offset -> 0 <= length ->
  offset + length <= bit_sz ba -> is_ssize r ->
  exists ba',
    bitarray_rotate ba offset length r = Ok ba' /\
    forall i, 0 <= i < length ->
      exists b,
        bitarray_get ba' (offset + i) = Ok b /\
        bitarray_get ba (offset + (i - r) mod length) = Ok b.
Proof.
  intros Hwf Ho Hl Hend Hr.
  destruct (bitarray_rotate_spec ba offset length r Hwf Ho Hl Hend Hr)
    as (ba' & Hrot & Hwf' & Hsz & Hb).
  exists ba'. split; [exact Hrot |]. intros i Hi.
  pose proof (Z.mod_pos_bound (i - r) length ltac:(lia)) as Hm.
  exists (bit_of (buf ba) (offset + (i - r) mod length)). split.
  - rewrite bitarray_get_spec by (assumption || lia).
    rewrite Hb by lia. case_bools; try lia.
    replace (offset + i - offset - r) with (i - r) by lia. reflexivity.
  - apply bitarray_get_spec; [assumption | lia].
Qed.

Lemma bitarray_rotate_correct_witness :
  wf_bitarray example200 /\ 0 <= 10 /\ 0 <= 180 /\
  10 + 180 <= bit_sz example200 /\ is_ssize (-47) /\
  exists ba',
    bitarray_rotate example200 10 180 (-47) = Ok ba' /\
    forall i, 0 <= i < 180 ->
      exists b,
        bitarray_get ba' (10 + i) = Ok b /\
        bitarray_get example200 (10 + (i - -47) mod 180) = Ok b.
Proof.
  assert (Hwf : wf_bitarray example200) by (apply wf_bitarrayb_sound; concrete).
  assert (H0 : 0 <= 10) by concrete.
  assert (H1 : 0 <= 180) by concrete.
  assert (H2 : 10 + 180 <= bit_sz example200) by concrete.
  assert (H3 : is_ssize (-47)) by concrete.
  repeat (split; [assumption |]).
  exact (bitarray_rotate_correct example200 10 180 (-47) Hwf H0 H1 H2 H3).
Defined.

(** C10.  [bitarray_rotate] on a range inside the array leaves the bit
    count and the buffer length as they were, and every bit outside
    [offset, offset + length) keeps its value: [bitarray_get] returns
    the same at every valid index outside the range, and the padding
    bits of the last byte do not change either. *)
Theorem bitarray_rotate_frame (ba : bitarray) (offset length r : Z) :
  wf_bitarray ba -> 0 <= offset -> 0 <= length ->
  offset + length <= bit_sz ba -> is_ssize r ->
  exists ba',
    bitarray_rotate ba offset length r = Ok ba' /\
    bitarray_get_bit_sz ba' = bitarray_get_bit_sz ba /\
    List.length (buf ba') = List.length (buf ba) /\
    (forall j, 0 <= j < bit_sz ba -> ~ (offset <= j < offset + length) ->
       exists b, bitarray_get ba' j = Ok b /\ bitarray_get ba j = Ok b) /\
    (forall k, 0 <= k -> ~ (offset <= k < offset + length) ->
       bit_of (buf ba') k = bit_of (buf ba) k).
Proof.
  intros Hwf Ho Hl Hend Hr.
  destruct (bitarray_rotate_spec ba offset length r Hwf Ho Hl Hend Hr)
    as (ba' & Hrot & Hwf' & Hsz & Hb).
  assert (Hout : forall k, 0 <= k -> ~ (offset <= k < offset + length) ->
            bit_of (buf ba') k = bit_of (buf ba) k).
  { intros k Hk Hn. rewrite Hb by lia. case_bools; try lia; reflexivity. }
  exists ba'. split; [exact Hrot |]. split; [exact Hsz |]. split.
  { destruct Hwf as (_ & _ & Hlen & _), Hwf' as (_ & _ & Hlen' & _).
    rewrite Hsz in Hlen'. lia. }
  split; [| exact Hout].
  intros j Hj Hn. exists (bit_of (buf ba) j). split.
  - rewrite bitarray_get_spec by (assumption || lia). f_equal.
    apply Hout; [lia | exact Hn].
  - apply bitarray_get_spec; assumption.
Qed.

Lemma bitarray_rotate_frame_witness :
  wf_bitarray example200 /\ 0 <= 10 /\ 0 <= 180 /\
  10 + 180 <= bit_sz example200 /\ is_ssize 47 /\
  exists ba',
    bitarray_rotate example200 10 180 47 = Ok ba' /\
    bitarray_get_bit_sz ba' = bitarray_get_bit_sz example200 /\
    List.length (buf ba') = List.length (buf example200) /\
    (forall j, 0 <= j < bit_sz example200 -> ~ (10 <= j < 10 + 180) ->
       exists b, bitarray_get ba' j = Ok b /\ bitarray_get example200 j = Ok b) /\
    (forall k, 0 <= k -> ~ (10 <= k < 10 + 180) ->
       bit_of (buf ba') k = bit_of (buf example200) k).
Proof.
  assert (Hwf : wf_bitarray example200) by (apply wf_bitarrayb_sound; concrete).
  assert (H0 : 0 <= 10) by concrete.
  assert (H1 : 0 <= 180) by concrete.
  assert (H2 : 10 + 180 <= bit_sz example200) by concrete.
  assert (H3 : is_ssize 47) by concrete.
  repeat (split; [assumption |]).
  exact (bitarray_rotate_frame example200 10 180 47 Hwf H0 H1 H2 H3).
Defined.

(** C7.  For a range inside the array and a signed [k] whose opposite is
    a signed amount too, [bitarray_rotate] by [k] and then by [- k]
    both return and give back the array of the start, bit for bit. *)
Theorem bitarray_rotate_inverse (ba : bitarray) (offset length k : Z) :
  wf_bitarray ba -> 0 <= offset -> 0 <= length ->
  offset + length <= bit_sz ba -> is_ssize k -> is_ssize (- k) ->
  exists ba1,
    bitarray_rotate ba offset length k = Ok ba1 /\
    bitarray_rotate ba1 offset length (- k) = Ok ba.
Proof.
  intros Hwf Ho Hl Hend Hk Hk'.
  destruct (bitarray_rotate_spec ba offset length k Hwf Ho Hl Hend Hk)
    as (ba1 & Hr1 & Hwf1 & Hsz1 & Hb1).
  destruct (bitarray_rotate_spec ba1 offset length (- k) Hwf1 Ho Hl
              ltac:(lia) Hk')
    as (ba2 & Hr2 & Hwf2 & Hsz2 & Hb2).
  exists ba1. split; [exact Hr1 |]. rewrite Hr2. f_equal.
  apply bitarray_ext; try assumption; [lia |].
  intros i Hi. rewrite Hb2 by lia.
  destruct (Z.leb_spec offset i), (Z.ltb_spec i (offset + length)); simpl;
    try (rewrite Hb1 by lia; case_bools; try lia; reflexivity).
  pose proof (Z.mod_pos_bound (i - offset - - k) length ltac:(lia)) as Hm.
  rewrite Hb1 by lia. case_bools; try lia. f_equal.
  replace (offset + (i - offset - - k) mod length - offset - k)
    with ((i - offset - - k) mod length - k) by lia.
  rewrite Zminus_mod_idemp_l.
  replace (i - offset - - k - k) with (i - offset) by lia.
  rewrite Z.mod_small by lia. lia.
Qed.

Lemma bitarray_rotate_inverse_witness :
  wf_bitarray example200 /\ 0 <= 10 /\ 0 <= 180 /\
  10 + 180 <= bit_sz example200 /\ is_ssize (-47) /\ is_ssize (- -47) /\
  exists ba1,
    bitarray_rotate example200 10 180 (-47) = Ok ba1 /\
    bitarray_rotate ba1 10 180 (- -47) = Ok example200.
Proof.
  assert (Hwf : wf_bitarray example200) by (apply wf_bitarrayb_sound; concrete).
  assert (H0 : 0 <= 10) by concrete.
  assert (H1 : 0 <= 180) by concrete.
  assert (H2 : 10 + 180 <= bit_sz example200) by concrete.
  assert (H3 : is_ssize (-47)) by concrete.
  assert (H4 : is_ssize (- -47)) by concrete.
  repeat (split; [assumption |]).
  exact (bitarray_rotate_inverse example200 10 180 (-47) Hwf H0 H1 H2 H3 H4).
Defined.

(** C9.  [bitarray_rotate] with [bit_length = 0] returns the array as it
    is, for every offset and amount; with [bit_length = 1] at a valid
    offset it returns the array as it is, for every signed amount, the
    negative ones included. *)
Theorem bitarray_rotate_short_noop (ba : bitarray) (offset r : Z) :
  bitarray_rotate ba offset 0 r = Ok ba /\
  (wf_bitarray ba -> 0 <= offset < bit_sz ba -> is_ssize r ->
   bitarray_rotate ba offset 1 r = Ok ba).
Proof.
  split; [reflexivity |].
  intros Hwf Ho Hr.
  destruct (bitarray_rotate_spec ba offset 1 r Hwf ltac:(lia) ltac:(lia)
              ltac:(lia) Hr)
    as (ba' & Hrot & Hwf' & Hsz & Hb).
  rewrite Hrot. f_equal.
  apply bitarray_ext; try assumption.
  intros k Hk. rewrite Hb by lia.
  case_bools; try lia; try reflexivity.
  f_equal. rewrite Z.mod_1_r. lia.
Qed.

Lemma bitarray_rotate_short_noop_witness :
  wf_bitarray example8 /\ 0 <= 3 < bit_sz example8 /\ is_ssize (-5) /\
  bitarray_rotate example8 3 0 (-5) = Ok example8 /\
  bitarray_rotate example8 3 1 (-5) = Ok example8.
Proof.
  assert (Hwf : wf_bitarray example8) by (apply wf_bitarrayb_sound; concrete).
  assert (H0 : 0 <= 3 < bit_sz example8) by concrete.
  assert (H1 : is_ssize (-5)) by concrete.
  repeat (split; [assumption |]).
  destruct (bitarray_rotate_short_noop example8 3 (-5)) as [Hz Hone].
  split; [exact Hz | exact (Hone Hwf H0 H1)].
Defined.

(** ** The normalisation of the amount *)

(** A non-negative amount is normalised into [0, bit_length). *)
Lemma rotate_normalize_nonneg (len r : Z) :
  0 < len -> is_size len -> is_ssize r -> 0 <= r ->
  rotate_normalize len r = r mod len /\ 0 <= rotate_normalize len r < len.
Proof.
  intros Hlen Hsz Hr Hpos. unfold is_size, is_ssize in *.
  pose proof (Z.mod_pos_bound r len Hlen) as Hm.
  assert (Hle : r mod len <= r) by (apply Z.mod_le; lia).
  unfold rotate_normalize. destruct (Z.ltb_spec r 0); [lia |].
  rewrite (to_size_small r) by (unfold is_size; lia).
  rewrite to_ssize_small by (unfold is_ssize; lia). lia.
Qed.

(** A negative amount is normalised into (0, bit_length]: the upper end
    is reached at the exact multiples of the length. *)
Lemma rotate_normalize_neg (len r : Z) :
  0 < len -> is_size len -> is_ssize r -> r < 0 ->
  to_size (rotate_normalize len r) = len - (- r) mod len /\
  0 < to_size (rotate_normalize len r) <= len.
Proof.
  intros Hlen Hsz Hr Hneg.
  destruct (rotate_normalize_unsigned len r Hlen Hsz Hr) as [Hu _].
  pose proof (Z.mod_pos_bound (- r) len Hlen) as Hm.
  rewrite Hu. unfold right_shift. destruct (Z.ltb_spec r 0); lia.
Qed.

(** A zero normalised amount makes [bitarray_rotate] return at once. *)
Lemma bitarray_rotate_zero_amount (ba : bitarray) (offset len r : Z) :
  rotate_normalize len r = 0 -> bitarray_rotate ba offset len r = Ok ba.
Proof.
  intros Hz. unfold bitarray_rotate. rewrite Hz.
  destruct (len =? 0); reflexivity.
Qed.

(** C4.  At [bit_length = 4] and [bit_right_amount = -4], an exact
    multiple of the length, the normalisation of [bitarray_rotate]
    yields 4, outside [0, 4); the return for a zero amount is not taken:
    on every array the call is the sequence of the three reversals, of
    which the second changes the array [example8] before the third
    restores it. *)
Theorem rotate_normalize_negative_multiple :
  rotate_normalize 4 (-4) = 4 /\
  ~ (0 <= rotate_normalize 4 (-4) < 4) /\
  (forall ba,
     bitarray_rotate ba 0 4 (-4) =
     bind (bitarray_reverse_range ba 0 0) (fun ba1 =>
       bind (bitarray_reverse_range ba1 0 4) (fun ba2 =>
         bitarray_reverse_range ba2 0 4))) /\
  (exists ba2,
     bitarray_reverse_range example8 0 4 = Ok ba2 /\ ba2 <> example8) /\
  bitarray_rotate example8 0 4 (-4) = Ok example8.
Proof.
  split; [reflexivity |].
  split; [vm_compute; intros [_ H]; discriminate H |].
  split; [intros ba; reflexivity |].
  split; [| vm_compute; reflexivity].
  eexists. split; [vm_compute; reflexivity | discriminate].
Qed.

(** ** The scenarios of the test suite *)

Example rotate_10110010_right_3 :
  bits_of_result (bitarray_rotate example8 0 8 3) =
  map Ok [false; true; false; true; false; true; true; false].
Proof. vm_compute. reflexivity. Qed.

Example rotate_200_there_and_back :
  bind (bitarray_rotate example200 10 180 (-47))
       (fun ba1 => bitarray_rotate ba1 10 180 47) = Ok example200.
Proof. vm_compute. reflexivity. Qed.

Example reverse_twice_200 :
  bind (bitarray_reverse_range example200 3 197)
       (fun ba1 => bitarray_reverse_range ba1 3 197) = Ok example200.
Proof. vm_compute. reflexivity. Qed.

(** * Further properties of the code *)

(** ** Creation *)




(** X2.  For the seven largest sizes, [bit_sz + 7] wraps in
    [bitarray_new]: the buffer is empty, and [bitarray_get] at every
    index below the size passes the assertion and reads outside the
    buffer. *)
Theorem bitarray_new_size_wraps (sz : Z) :
  2 ^ 64 - 7 <= sz < 2 ^ 64 ->
  buf (bitarray_new sz) = [] /\
  forall i, 0 <= i < sz -> bitarray_get (bitarray_new sz) i = Fault OutOfBounds.
Proof.
  intros Hsz.
  assert (Hb : buf (bitarray_new sz) = []).
  { unfold bitarray_new. cbn [buf].
    replace (to_size (sz + 7) / 8) with 0; [reflexivity |].
    unfold to_size. change (2 ^ 64) with 18446744073709551616 in *.
    Z.div_mod_to_equations. lia. }
  split; [exact Hb |].
  intros i Hi. unfold bitarray_get. rewrite Hb.
  change (bit_sz (bitarray_new sz)) with sz.
  destruct (Z.ltb_spec i sz); [| lia].
  unfold load_byte. destruct (0 <=? i / 8); reflexivity.
Qed.

Lemma bitarray_new_size_wraps_witness :
  2 ^ 64 - 7 <= 2 ^ 64 - 1 < 2 ^ 64 /\
  buf (bitarray_new (2 ^ 64 - 1)) = [] /\
  forall i, 0 <= i < 2 ^ 64 - 1 ->
    bitarray_get (bitarray_new (2 ^ 64 - 1)) i = Fault OutOfBounds.
Proof.
  assert (H : 2 ^ 64 - 7 <= 2 ^ 64 - 1 < 2 ^ 64) by concrete.
  split; [exact H |].
  exact (bitarray_new_size_wraps (2 ^ 64 - 1) H).
Defined.

(** ** Laws of the single-bit accessors *)

(** X3.  Two [bitarray_set] at the same valid index: the second one
    wins, the array is the one the second alone gives. *)
Theorem bitarray_set_overwrite (ba : bitarray) (i : Z) (v w : bool) :
  wf_bitarray ba -> 0 <= i < bit_sz ba ->
  exists ba1,
    bitarray_set ba i v = Ok ba1 /\
    bitarray_set ba1 i w = bitarray_set ba i w.
Proof.
  intros Hwf Hi.
  destruct (bitarray_set_spec ba i v Hwf Hi) as (ba1 & Hs1 & Hwf1 & Hsz1 & Hb1).
  destruct (bitarray_set_spec ba1 i w Hwf1 ltac:(lia))
    as (ba2 & Hs2 & Hwf2 & Hsz2 & Hb2).
  destruct (bitarray_set_spec ba i w Hwf Hi) as (ba3 & Hs3 & Hwf3 & Hsz3 & Hb3).
  exists ba1. split; [exact Hs1 |]. rewrite Hs2, Hs3. f_equal.
  apply bitarray_ext; try assumption; [lia |].
  intros k Hk. rewrite Hb2, Hb3, Hb1 by lia.
  destruct (k =? i); reflexivity.
Qed.

Lemma bitarray_set_overwrite_witness :
  wf_bitarray example8 /\ 0 <= 6 < bit_sz example8 /\
  exists ba1,
    bitarray_set example8 6 false = Ok ba1 /\
    bitarray_set ba1 6 true = bitarray_set example8 6 true.
Proof.
  assert (Hwf : wf_bitarray example8) by (apply wf_bitarrayb_sound; concrete).
  assert (Hi : 0 <= 6 < bit_sz example8) by concrete.
  split; [exact Hwf |]. split; [exact Hi |].
  exact (bitarray_set_overwrite example8 6 false true Hwf Hi).
Defined.

(** X4.  [bitarray_set] at two different valid indices commute: both
    orders return the same array. *)
Theorem bitarray_set_commute (ba : bitarray) (i j : Z) (v w : bool) :
  wf_bitarray ba -> 0 <= i < bit_sz ba -> 0 <= j < bit_sz ba -> i <> j ->
  exists ba',
    bind (bitarray_set ba i v) (fun ba1 => bitarray_set ba1 j w) = Ok ba' /\
    bind (bitarray_set ba j w) (fun ba1 => bitarray_set ba1 i v) = Ok ba'.
Proof.
  intros Hwf Hi Hj Hne.
  destruct (bitarray_set_spec ba i v Hwf Hi) as (a1 & Ha1 & Hwa1 & Hsa1 & Hba1).
  destruct (bitarray_set_spec a1 j w Hwa1 ltac:(lia))
    as (a2 & Ha2 & Hwa2 & Hsa2 & Hba2).
  destruct (bitarray_set_spec ba j w Hwf Hj) as (b1 & Hb1 & Hwb1 & Hsb1 & Hbb1).
  destruct (bitarray_set_spec b1 i v Hwb1 ltac:(lia))
    as (b2 & Hb2 & Hwb2 & Hsb2 & Hbb2).
  exists a2. rewrite Ha1, Hb1. cbn [bind]. split; [exact Ha2 |].
  rewrite Hb2. f_equal.
  apply bitarray_ext; try assumption; [lia |].
  intros k Hk. rewrite Hbb2, Hbb1, Hba2, Hba1 by lia.
  case_bools; try lia; reflexivity.
Qed.

Lemma bitarray_set_commute_witness :
  wf_bitarray example8 /\ 0 <= 1 < bit_sz example8 /\
  0 <= 6 < bit_sz example8 /\ 1 <> 6 /\
  exists ba',
    bind (bitarray_set example8 1 true) (fun ba1 => bitarray_set ba1 6 false)
      = Ok ba' /\
    bind (bitarray_set example8 6 false) (fun ba1 => bitarray_set ba1 1 true)
      = Ok ba'.
Proof.
  assert (Hwf : wf_bitarray example8) by (apply wf_bitarrayb_sound; concrete).
  assert (Hi : 0 <= 1 < bit_sz example8) by concrete.
  assert (Hj : 0 <= 6 < bit_sz example8) by concrete.
  assert (Hne : 1 <> 6) by discriminate.
  repeat (split; [assumption |]).
  exact (bitarray_set_commute example8 1 6 true false Hwf Hi Hj Hne).
Defined.

(** X5.  Writing back with [bitarray_set] the value [bitarray_get] reads
    at a valid index returns the array as it was. *)
Theorem bitarray_set_of_get (ba : bitarray) (i : Z) :
  wf_bitarray ba -> 0 <= i < bit_sz ba ->
  bind (bitarray_get ba i) (fun v => bitarray_set ba i v) = Ok ba.
Proof.
  intros Hwf Hi. rewrite bitarray_get_spec by assumption. cbn [bind].
  destruct (bitarray_set_spec ba i (bit_of (buf ba) i) Hwf Hi)
    as (ba1 & Hs1 & Hwf1 & Hsz1 & Hb1).
  rewrite Hs1. f_equal. apply bitarray_ext; try assumption.
  intros k Hk. rewrite Hb1 by lia.
  destruct (Z.eqb_spec k i) as [-> |]; reflexivity.
Qed.

Lemma bitarray_set_of_get_witness :
  wf_bitarray example8 /\ 0 <= 7 < bit_sz example8 /\
  bind (bitarray_get example8 7) (fun v => bitarray_set example8 7 v)
    = Ok example8.
Proof.
  assert (Hwf : wf_bitarray example8) by (apply wf_bitarrayb_sound; concrete).
  assert (Hi : 0 <= 7 < bit_sz example8) by concrete.
  split; [exact Hwf |]. split; [exact Hi |].
  exact (bitarray_set_of_get example8 7 Hwf Hi).
Defined.

(** ** Faults of the 64-bit accessors *)

Lemma load_byte_fault_kind (b : list Z) (i : Z) (f : fault) :
  load_byte b i = Fault f -> f = OutOfBounds.
Proof.
  unfold load_byte. destruct (0 <=? i); [destruct (b !! Z.to_nat i) |];
    congruence.
Qed.

Lemma store_byte_fault_kind (b : list Z) (i c : Z) (f : fault) :
  store_byte b i c = Fault f -> f = OutOfBounds.
Proof.
  unfold store_byte. destruct ((0 <=? i) && (i <? Z.of_nat (length b)));
    congruence.
Qed.

Lemma load_le_fault_kind (n : nat) (b : list Z) (i : Z) (f : fault) :
  load_le n b i = Fault f -> f = OutOfBounds.
Proof.
  revert i. induction n as [| n IH]; intros i H; [discriminate |].
  rewrite load_le_S in H.
  destruct (load_byte b i) as [c | f'] eqn:Hc; cbn [bind] in H.
  - destruct (load_le n b (i + 1)) as [hi | f''] eqn:Hhi; cbn [bind] in H;
      [discriminate |].
    injection H as <-. exact (IH _ Hhi).
  - injection H as <-. exact (load_byte_fault_kind _ _ _ Hc).
Qed.

Lemma store_le_fault_kind (n : nat) (b : list Z) (i w : Z) (f : fault) :
  store_le n b i w = Fault f -> f = OutOfBounds.
Proof.
  revert b i w. induction n as [| n IH]; intros b i w H; [discriminate |].
  rewrite store_le_S in H.
  destruct (store_byte b i (to_char w)) as [b1 | f'] eqn:Hs; cbn [bind] in H.
  - exact (IH _ _ _ H).
  - injection H as <-. exact (store_byte_fault_kind _ _ _ _ Hs).
Qed.

(** X6.  [bitarray_get_u64] at a bit index returns a word exactly when
    the eight bytes from [bit_index / 8], and the ninth when
    [bit_index] is not a multiple of 8, are inside the buffer; otherwise
    it reads outside the buffer.  It has no check of its own and no
    other fault. *)
Theorem bitarray_get_u64_fault (ba : bitarray) (bit_index : Z) :
  0 <= bit_index ->
  (u64_in_bounds (Z.of_nat (length (buf ba))) bit_index ->
   exists w, bitarray_get_u64 ba bit_index = Ok w) /\
  (~ u64_in_bounds (Z.of_nat (length (buf ba))) bit_index ->
   bitarray_get_u64 ba bit_index = Fault OutOfBounds).
Proof.
  intros Hidx. split.
  - intros Hin. apply u64_in_bounds_bits in Hin; [| exact Hidx].
    destruct (bitarray_get_u64_spec ba bit_index Hidx Hin) as (w & Hw & _).
    exists w. exact Hw.
  - intros Hout.
    destruct (bitarray_get_u64 ba bit_index) as [w | f] eqn:Hg.
    + exfalso. apply Hout.
      exact (bitarray_get_u64_Ok_in_bounds ba bit_index w Hidx Hg).
    + f_equal. unfold bitarray_get_u64 in Hg. cbv zeta in Hg.
      destruct (load_le 8 (buf ba) (bit_index / 8)) as [low | f'] eqn:Hl;
        cbn [bind] in Hg.
      * destruct (bit_index mod 8 =? 0); [discriminate |].
        destruct (load_byte (buf ba) (bit_index / 8 + 8)) as [c | f''] eqn:Hc;
          cbn [bind] in Hg; [discriminate |].
        injection Hg as <-. exact (load_byte_fault_kind _ _ _ Hc).
      * injection Hg as <-. exact (load_le_fault_kind _ _ _ _ Hl).
Qed.

Lemma bitarray_get_u64_fault_witness :
  0 <= 137 /\
  ~ u64_in_bounds (Z.of_nat (length (buf example200))) 137 /\
  bitarray_get_u64 example200 137 = Fault OutOfBounds.
Proof.
  assert (H0 : 0 <= 137) by concrete.
  assert (H1 : ~ u64_in_bounds (Z.of_nat (length (buf example200))) 137)
    by (vm_compute; intros H; apply H; reflexivity).
  split; [exact H0 |]. split; [exact H1 |].
  exact (proj2 (bitarray_get_u64_fault example200 137 H0) H1).
Defined.

(** X7.  [bitarray_set_u64] of a 64-bit value returns an array exactly
    when the bytes it touches are inside the buffer, and writes outside
    the buffer otherwise. *)
Theorem bitarray_set_u64_fault (ba : bitarray) (bit_index value : Z) :
  0 <= bit_index -> is_size value ->
  (u64_in_bounds (Z.of_nat (length (buf ba))) bit_index ->
   exists ba', bitarray_set_u64 ba bit_index value = Ok ba') /\
  (~ u64_in_bounds (Z.of_nat (length (buf ba))) bit_index ->
   bitarray_set_u64 ba bit_index value = Fault OutOfBounds).
Proof.
  intros Hidx Hv. split.
  - intros Hin. apply u64_in_bounds_bits in Hin; [| exact Hidx].
    destruct (bitarray_set_u64_spec ba bit_index value Hidx Hin Hv)
      as (ba' & Hs & _).
    exists ba'. exact Hs.
  - intros Hout.
    destruct (bitarray_set_u64 ba bit_index value) as [ba' | f] eqn:Hg.
    + exfalso. apply Hout.
      exact (bitarray_set_u64_Ok_in_bounds ba ba' bit_index value Hidx Hg).
    + f_equal. unfold bitarray_set_u64 in Hg. cbv zeta in Hg.
      destruct (bit_index mod 8 =? 0).
      * destruct (store_le 8 (buf ba) (bit_index / 8) value) as [b' | f'] eqn:Hs;
          cbn [bind] in Hg; [discriminate |].
        injection Hg as <-. exact (store_le_fault_kind _ _ _ _ _ Hs).
      * destruct (load_le 8 (buf ba) (bit_index / 8)) as [low | f'] eqn:Hl;
          cbn [bind] in Hg;
          [| injection Hg as <-; exact (load_le_fault_kind _ _ _ _ Hl)].
        destruct (load_byte (buf ba) (bit_index / 8 + 8)) as [c | f''] eqn:Hc;
          cbn [bind] in Hg;
          [| injection Hg as <-; exact (load_byte_fault_kind _ _ _ Hc)].
        match type of Hg with
        | bind (store_le ?n ?b ?i ?w) _ = _ =>
            destruct (store_le n b i w) as [b1 | f1] eqn:Hs1; cbn [bind] in Hg;
            [| injection Hg as <-; exact (store_le_fault_kind _ _ _ _ _ Hs1)]
        end.
        match type of Hg with
        | bind (store_byte ?b ?i ?c) _ = _ =>
            destruct (store_byte b i c) as [b2 | f2] eqn:Hs2; cbn [bind] in Hg;
            [discriminate
            | injection Hg as <-; exact (store_byte_fault_kind _ _ _ _ Hs2)]
        end.
Qed.

Lemma bitarray_set_u64_fault_witness :
  0 <= 137 /\ is_size 5 /\
  ~ u64_in_bounds (Z.of_nat (length (buf example200))) 137 /\
  bitarray_set_u64 example200 137 5 = Fault OutOfBounds.
Proof.
  assert (H0 : 0 <= 137) by concrete.
  assert (H1 : is_size 5) by concrete.
  assert (H2 : ~ u64_in_bounds (Z.of_nat (length (buf example200))) 137)
    by (vm_compute; intros H; apply H; reflexivity).
  split; [exact H0 |]. split; [exact H1 |]. split; [exact H2 |].
  exact (proj2 (bitarray_set_u64_fault example200 137 5 H0 H1) H2).
Defined.

(** ** Range reversal *)

(** X8.  [bitarray_reverse_range] on a range inside the array keeps the
    bit count and the buffer length, and [bitarray_get] returns the same
    as before at every valid index outside the range. *)
Theorem bitarray_reverse_range_frame (ba : bitarray) (start length : Z) :
  wf_bitarray ba -> 0 <= start -> 0 <= length ->
  start + length <= bit_sz ba ->
  exists ba',
    bitarray_reverse_range ba start length = Ok ba' /\
    bit_sz ba' = bit_sz ba /\
    List.length (buf ba') = List.length (buf ba) /\
    forall j, 0 <= j < bit_sz ba -> ~ (start <= j < start + length) ->
      exists b, bitarray_get ba' j = Ok b /\ bitarray_get ba j = Ok b.
Proof.
  intros Hwf Hs Hl Hend.
  destruct (bitarray_reverse_range_spec ba start length Hwf Hs Hl Hend)
    as (ba' & Hr & Hwf' & Hsz & Hb).
  exists ba'. split; [exact Hr |]. split; [exact Hsz |]. split.
  { destruct Hwf as (_ & _ & Hlen & _), Hwf' as (_ & _ & Hlen' & _).
    rewrite Hsz in Hlen'. lia. }
  intros j Hj Hn. exists (bit_of (buf ba) j). split.
  - rewrite bitarray_get_spec by (assumption || lia). f_equal.
    rewrite Hb by lia. case_bools; try lia; reflexivity.
  - apply bitarray_get_spec; assumption.
Qed.

Lemma bitarray_reverse_range_frame_witness :
  wf_bitarray example200 /\ 0 <= 10 /\ 0 <= 180 /\
  10 + 180 <= bit_sz example200 /\
  exists ba',
    bitarray_reverse_range example200 10 180 = Ok ba' /\
    bit_sz ba' = bit_sz example200 /\
    List.length (buf ba') = List.length (buf example200) /\
    forall j, 0 <= j < bit_sz example200 -> ~ (10 <= j < 10 + 180) ->
      exists b, bitarray_get ba' j = Ok b /\ bitarray_get example200 j = Ok b.
Proof.
  assert (Hwf : wf_bitarray example200) by (apply wf_bitarrayb_sound; concrete).
  assert (H0 : 0 <= 10) by concrete.
  assert (H1 : 0 <= 180) by concrete.
  assert (H2 : 10 + 180 <= bit_sz example200) by concrete.
  repeat (split; [assumption |]).
  exact (bitarray_reverse_range_frame example200 10 180 Hwf H0 H1 H2).
Defined.

(** X9.  [bitarray_reverse_range] is an involution: applied twice to a
    range inside the array, it returns the array of the start. *)
Theorem bitarray_reverse_range_involutive (ba : bitarray) (start length : Z) :
  wf_bitarray ba -> 0 <= start -> 0 <= length ->
  start + length <= bit_sz ba ->
  exists ba1,
    bitarray_reverse_range ba start length = Ok ba1 /\
    bitarray_reverse_range ba1 start length = Ok ba.
Proof.
  intros Hwf Hs Hl Hend.
  destruct (bitarray_reverse_range_spec ba start length Hwf Hs Hl Hend)
    as (ba1 & Hr1 & Hwf1 & Hsz1 & Hb1).
  destruct (bitarray_reverse_range_spec ba1 start length Hwf1 Hs Hl ltac:(lia))
    as (ba2 & Hr2 & Hwf2 & Hsz2 & Hb2).
  exists ba1. split; [exact Hr1 |]. rewrite Hr2. f_equal.
  apply bitarray_ext; try assumption; [lia |].
  intros k Hk. rewrite Hb2 by lia.
  case_bools; try lia; rewrite Hb1 by lia;
    case_bools; try lia; try reflexivity; f_equal; lia.
Qed.

Lemma bitarray_reverse_range_involutive_witness :
  wf_bitarray example200 /\ 0 <= 3 /\ 0 <= 197 /\
  3 + 197 <= bit_sz example200 /\
  exists ba1,
    bitarray_reverse_range example200 3 197 = Ok ba1 /\
    bitarray_reverse_range ba1 3 197 = Ok example200.
Proof.
  assert (Hwf : wf_bitarray example200) by (apply wf_bitarrayb_sound; concrete).
  assert (H0 : 0 <= 3) by concrete.
  assert (H1 : 0 <= 197) by concrete.
  assert (H2 : 3 + 197 <= bit_sz example200) by concrete.
  repeat (split; [assumption |]).
  exact (bitarray_reverse_range_involutive example200 3 197 Hwf H0 H1 H2).
Defined.

(** X10.  A range of 2 to 127 bits that starts at a [size_t] index and
    ends past the bit count: [bitarray_reverse_range] stops in its first
    swap at the assertion of [bitarray_get], before any write. *)
Theorem bitarray_reverse_range_past_end (ba : bitarray) (start length : Z) :
  wf_bitarray ba -> 0 <= start -> 2 <= length < 128 ->
  bit_sz ba < start + length -> start + length < 2 ^ 64 ->
  bitarray_reverse_range ba start length = Fault AssertionFailed.
Proof.
  intros Hwf Hs Hl Hpast Hnowrap. unfold bitarray_reverse_range. cbv zeta.
  rewrite (to_size_small (start + length)) by (unfold is_size; lia).
  assert (Hbulk : forall fuel,
            reverse_bulk fuel ba start (start + length) length =
            Ok (ba, (start, start + length, length))).
  { intros [| fuel]; cbn [reverse_bulk];
      destruct (Z.leb_spec 128 length); (lia || reflexivity). }
  rewrite Hbulk. cbn [bind].
  assert (Hhalf : 1 <= length / 2 <= length) by (Z.div_mod_to_equations; lia).
  rewrite (to_size_small (start + length / 2)) by (unfold is_size; lia).
  destruct (Z.to_nat (length / 2)) as [| fuel] eqn:Hfuel; [lia |].
  cbn [reverse_tail].
  destruct (Z.ltb_spec start (start + length / 2)); [| lia].
  destruct (Z.lt_ge_cases start (bit_sz ba)) as [Hin | Hout].
  - rewrite (bitarray_get_spec ba start) by (assumption || lia). cbn [bind].
    rewrite (to_size_small (start + length - 1)) by (unfold is_size; lia).
    rewrite Z.sub_diag, (to_size_small 0) by (unfold is_size; lia).
    rewrite Z.sub_0_r.
    rewrite (to_size_small (start + length - 1)) by (unfold is_size; lia).
    unfold bitarray_get at 1.
    destruct (Z.ltb_spec (start + length - 1) (bit_sz ba)); [lia |].
    reflexivity.
  - unfold bitarray_get at 1.
    destruct (Z.ltb_spec start (bit_sz ba)); [lia |]. reflexivity.
Qed.

Lemma bitarray_reverse_range_past_end_witness :
  wf_bitarray example8 /\ 0 <= 5 /\ 2 <= 4 < 128 /\
  bit_sz example8 < 5 + 4 /\ 5 + 4 < 2 ^ 64 /\
  bitarray_reverse_range example8 5 4 = Fault AssertionFailed.
Proof.
  assert (Hwf : wf_bitarray example8) by (apply wf_bitarrayb_sound; concrete).
  assert (H0 : 0 <= 5) by concrete.
  assert (H1 : 2 <= 4 < 128) by concrete.
  assert (H2 : bit_sz example8 < 5 + 4) by concrete.
  assert (H3 : 5 + 4 < 2 ^ 64) by concrete.
  repeat (split; [assumption |]).
  exact (bitarray_reverse_range_past_end example8 5 4 Hwf H0 H1 H2 H3).
Defined.

(** ** Algebra of the rotation *)

Lemma sub_mod_congr (len r r' x : Z) :
  0 < len -> (r - r') mod len = 0 -> (x - r) mod len = (x - r') mod len.
Proof.
  intros Hlen H. apply Z.mod_divide in H; [| lia]. destruct H as [q Hq].
  replace (x - r) with ((x - r') + (- q) * len) by lia.
  apply Z_mod_plus_full.
Qed.

(** X11.  On a range inside the array, [bitarray_rotate] depends on the
    amount only modulo the length: two signed amounts whose difference
    is a multiple of [bit_length] return the same array. *)
Theorem bitarray_rotate_congruent (ba : bitarray) (offset length r r' : Z) :
  wf_bitarray ba -> 0 <= offset -> 0 <= length ->
  offset + length <= bit_sz ba -> is_ssize r -> is_ssize r' ->
  (r - r') mod length = 0 ->
  exists ba',
    bitarray_rotate ba offset length r = Ok ba' /\
    bitarray_rotate ba offset length r' = Ok ba'.
Proof.
  intros Hwf Ho Hl Hend Hr Hr' Hcong.
  destruct (bitarray_rotate_spec ba offset length r Hwf Ho Hl Hend Hr)
    as (ba1 & Hr1 & Hwf1 & Hsz1 & Hb1).
  destruct (bitarray_rotate_spec ba offset length r' Hwf Ho Hl Hend Hr')
    as (ba2 & Hr2 & Hwf2 & Hsz2 & Hb2).
  exists ba1. split; [exact Hr1 |]. rewrite Hr2. f_equal.
  apply bitarray_ext; try assumption; [lia |].
  intros k Hk. rewrite Hb1, Hb2 by lia.
  case_bools; try reflexivity.
  rewrite (sub_mod_congr length r r') by (assumption || lia). reflexivity.
Qed.

Lemma bitarray_rotate_congruent_witness :
  wf_bitarray example200 /\ 0 <= 10 /\ 0 <= 180 /\
  10 + 180 <= bit_sz example200 /\ is_ssize (-47) /\ is_ssize 313 /\
  (-47 - 313) mod 180 = 0 /\
  exists ba',
    bitarray_rotate example200 10 180 (-47) = Ok ba' /\
    bitarray_rotate example200 10 180 313 = Ok ba'.
Proof.
  assert (Hwf : wf_bitarray example200) by (apply wf_bitarrayb_sound; concrete).
  assert (H0 : 0 <= 10) by concrete.
  assert (H1 : 0 <= 180) by concrete.
  assert (H2 : 10 + 180 <= bit_sz example200) by concrete.
  assert (H3 : is_ssize (-47)) by concrete.
  assert (H4 : is_ssize 313) by concrete.
  assert (H5 : (-47 - 313) mod 180 = 0) by reflexivity.
  repeat (split; [assumption |]).
  exact (bitarray_rotate_congruent example200 10 180 (-47) 313
           Hwf H0 H1 H2 H3 H4 H5).
Defined.

(** X12.  Rotations of the same range compose by adding the amounts:
    [bitarray_rotate] by [r1] and then by [r2] returns the array that
    the rotation by [r1 + r2] returns. *)
Theorem bitarray_rotate_compose (ba : bitarray) (offset length r1 r2 : Z) :
  wf_bitarray ba -> 0 <= offset -> 0 <= length ->
  offset + length <= bit_sz ba ->
  is_ssize r1 -> is_ssize r2 -> is_ssize (r1 + r2) ->
  exists ba1 ba2,
    bitarray_rotate ba offset length r1 = Ok ba1 /\
    bitarray_rotate ba1 offset length r2 = Ok ba2 /\
    bitarray_rotate ba offset length (r1 + r2) = Ok ba2.
Proof.
  intros Hwf Ho Hl Hend H1 H2 H12.
  destruct (bitarray_rotate_spec ba offset length r1 Hwf Ho Hl Hend H1)
    as (ba1 & Hr1 & Hwf1 & Hsz1 & Hb1).
  destruct (bitarray_rotate_spec ba1 offset length r2 Hwf1 Ho Hl ltac:(lia) H2)
    as (ba2 & Hr2 & Hwf2 & Hsz2 & Hb2).
  destruct (bitarray_rotate_spec ba offset length (r1 + r2) Hwf Ho Hl Hend H12)
    as (ba3 & Hr3 & Hwf3 & Hsz3 & Hb3).
  exists ba1, ba2. split; [exact Hr1 |]. split; [exact Hr2 |].
  rewrite Hr3. f_equal.
  apply bitarray_ext; try assumption; [lia |].
  intros k Hk. rewrite Hb3, Hb2 by lia.
  destruct (Z.leb_spec offset k), (Z.ltb_spec k (offset + length)); simpl;
    try (rewrite Hb1 by lia; case_bools; try lia; reflexivity).
  pose proof (Z.mod_pos_bound (k - offset - r2) length ltac:(lia)) as Hm.
  rewrite Hb1 by lia. case_bools; try lia. f_equal. f_equal.
  replace (offset + (k - offset - r2) mod length - offset - r1)
    with ((k - offset - r2) mod length - r1) by lia.
  rewrite Zminus_mod_idemp_l. f_equal. lia.
Qed.

Lemma bitarray_rotate_compose_witness :
  wf_bitarray example200 /\ 0 <= 10 /\ 0 <= 180 /\
  10 + 180 <= bit_sz example200 /\
  is_ssize (-47) /\ is_ssize 150 /\ is_ssize (-47 + 150) /\
  exists ba1 ba2,
    bitarray_rotate example200 10 180 (-47) = Ok ba1 /\
    bitarray_rotate ba1 10 180 150 = Ok ba2 /\
    bitarray_rotate example200 10 180 (-47 + 150) = Ok ba2.
Proof.
  assert (Hwf : wf_bitarray example200) by (apply wf_bitarrayb_sound; concrete).
  assert (H0 : 0 <= 10) by concrete.
  assert (H1 : 0 <= 180) by concrete.
  assert (H2 : 10 + 180 <= bit_sz example200) by concrete.
  assert (H3 : is_ssize (-47)) by concrete.
  assert (H4 : is_ssize 150) by concrete.
  assert (H5 : is_ssize (-47 + 150)) by concrete.
  repeat (split; [assumption |]).
  exact (bitarray_rotate_compose example200 10 180 (-47) 150
           Hwf H0 H1 H2 H3 H4 H5).
Defined.

(** X13.  [bitarray_rotate] by a multiple of the length, positive, zero
    or negative, returns the array unchanged; for the negative multiples
    this is the outcome of the three reversals, not of the early
    return. *)
Theorem bitarray_rotate_multiple (ba : bitarray) (offset length q : Z) :
  wf_bitarray ba -> 0 <= offset -> 0 <= length ->
  offset + length <= bit_sz ba -> is_ssize (q * length) ->
  bitarray_rotate ba offset length (q * length) = Ok ba.
Proof.
  intros Hwf Ho Hl Hend Hq.
  destruct (bitarray_rotate_spec ba offset length (q * length) Hwf Ho Hl Hend Hq)
    as (ba1 & Hr1 & Hwf1 & Hsz1 & Hb1).
  rewrite Hr1. f_equal. apply bitarray_ext; try assumption.
  intros k Hk. rewrite Hb1 by lia. case_bools; try reflexivity.
  f_equal.
  replace (k - offset - q * length) with ((k - offset) + (- q) * length) by lia.
  rewrite Z_mod_plus_full, Z.mod_small by lia. lia.
Qed.

Lemma bitarray_rotate_multiple_witness :
  wf_bitarray example200 /\ 0 <= 10 /\ 0 <= 180 /\
  10 + 180 <= bit_sz example200 /\ is_ssize (-3 * 180) /\
  bitarray_rotate example200 10 180 (-3 * 180) = Ok example200.
Proof.
  assert (Hwf : wf_bitarray example200) by (apply wf_bitarrayb_sound; concrete).
  assert (H0 : 0 <= 10) by concrete.
  assert (H1 : 0 <= 180) by concrete.
  assert (H2 : 10 + 180 <= bit_sz example200) by concrete.
  assert (H3 : is_ssize (-3 * 180)) by concrete.
  repeat (split; [assumption |]).
  exact (bitarray_rotate_multiple example200 10 180 (-3) Hwf H0 H1 H2 H3).
Defined.

(** ** The portable modulo *)

(** X14.  [modulo] keeps its documented contract: for a signed dividend
    and a divisor in (0, 2^62] it returns the mathematical residue
    [n mod m], which lies in [0, m), negative dividends included. *)
Theorem modulo_correct (n m : Z) :
  is_ssize n -> 0 < m <= 2 ^ 62 ->
  modulo n m = Ok (n mod m) /\ 0 <= n mod m < m.
Proof.
  intros Hn Hm. unfold is_ssize in Hn.
  pose proof (Z.mod_pos_bound n m ltac:(lia)) as Hb.
  split; [| exact Hb].
  unfold modulo. cbv zeta.
  rewrite (to_ssize_small m) by (unfold is_ssize; lia).
  destruct (Z.ltb_spec 0 m); [| lia].
  pose proof (Z.rem_bound_abs n m ltac:(lia)) as Habs.
  pose proof (Z.quot_rem' n m) as Hqr.
  set (r := Z.rem n m) in *.
  rewrite (to_ssize_small (r + m)) by (unfold is_ssize; lia).
  rewrite Z.rem_mod_nonneg by lia.
  assert (He : (r + m) mod m = n mod m).
  { replace (n mod m) with ((r + Z.quot n m * m) mod m) by (f_equal; lia).
    replace (r + m) with (r + 1 * m) by lia.
    rewrite !Z_mod_plus_full. reflexivity. }
  rewrite He. destruct (Z.leb_spec 0 (n mod m)); [| lia].
  rewrite to_size_small by (unfold is_size; lia). reflexivity.
Qed.

Lemma modulo_correct_witness :
  is_ssize (-1) /\ 0 < 10 <= 2 ^ 62 /\
  modulo (-1) 10 = Ok (-1 mod 10) /\ 0 <= -1 mod 10 < 10.
Proof.
  assert (H0 : is_ssize (-1)) by concrete.
  assert (H1 : 0 < 10 <= 2 ^ 62) by concrete.
  split; [exact H0 |]. split; [exact H1 |].
  exact (modulo_correct (-1) 10 H0 H1).
Defined.

(** X15.  [modulo] stops at its first assertion when the divisor,
    converted to [ssize_t], is not positive: for [m = 0] and for every
    [m] from [2^63] on. *)
Theorem modulo_rejects_divisor (n m : Z) :
  is_size m -> m = 0 \/ 2 ^ 63 <= m ->
  modulo n m = Fault AssertionFailed.
Proof.
  intros Hm Hbad. unfold is_size in Hm. unfold modulo. cbv zeta.
  assert (Hs : to_ssize m <= 0).
  { unfold to_ssize. destruct Hbad as [-> | Hbig]; [vm_compute; discriminate |].
    replace (m + 2 ^ 63) with ((m - 2 ^ 63) + 1 * 2 ^ 64) by lia.
    rewrite Z_mod_plus_full, Z.mod_small by lia. lia. }
  destruct (Z.ltb_spec 0 (to_ssize m)); [lia | reflexivity].
Qed.

Lemma modulo_rejects_divisor_witness :
  is_size 0 /\ (0 = 0 \/ 2 ^ 63 <= 0) /\ modulo 7 0 = Fault AssertionFailed.
Proof.
  assert (H0 : is_size 0) by concrete.
  assert (H1 : 0 = 0 \/ 2 ^ 63 <= 0) by (left; reflexivity).
  split; [exact H0 |]. split; [exact H1 |].
  exact (modulo_rejects_divisor 7 0 H0 H1).
Defined.

(** X16.  The normalisation written out in [bitarray_rotate] agrees with
    [modulo] except at the negative exact multiples of the length, where
    [modulo] returns 0 and the normalisation gives the length. *)
Theorem rotate_normalize_vs_modulo (len r : Z) :
  0 < len <= 2 ^ 62 -> is_ssize r ->
  exists a,
    modulo r len = Ok a /\ 0 <= a < len /\
    to_size (rotate_normalize len r) =
      if (r <? 0) && (a =? 0) then len else a.
Proof.
  intros Hlen Hr.
  destruct (modulo_correct r len Hr Hlen) as [Hm Hb].
  exists (r mod len). split; [exact Hm |]. split; [exact Hb |].
  destruct (rotate_normalize_unsigned len r ltac:(lia)
              ltac:(unfold is_size; lia) Hr) as [Hu _].
  rewrite Hu. unfold right_shift.
  destruct (Z.ltb_spec r 0) as [Hneg | Hpos]; [| reflexivity]. simpl.
  destruct (Z.eqb_spec (r mod len) 0) as [Hz | Hnz].
  - rewrite Z.mod_opp_l_z by lia. lia.
  - rewrite Z.mod_opp_l_nz by lia. lia.
Qed.

Lemma rotate_normalize_vs_modulo_witness :
  0 < 4 <= 2 ^ 62 /\ is_ssize (-8) /\
  exists a,
    modulo (-8) 4 = Ok a /\ 0 <= a < 4 /\
    to_size (rotate_normalize 4 (-8)) =
      if (-8 <? 0) && (a =? 0) then 4 else a.
Proof.
  assert (H0 : 0 < 4 <= 2 ^ 62) by concrete.
  assert (H1 : is_ssize (-8)) by concrete.
  split; [exact H0 |]. split; [exact H1 |].
  exact (rotate_normalize_vs_modulo 4 (-8) H0 H1).
Defined.

(** ** Random fill *)

(** While the words fit, the loop stores [rand j] in word [j] of the
    buffer, for every [j] from [i] to [bit_sz / 32]. *)
Lemma randfill_loop_spec (rand : Z -> Z) (fuel : nat) :
  forall (ba : bitarray) (i : Z),
    0 <= bit_sz ba < 2 ^ 64 -> 0 <= i <= bit_sz ba / 32 + 1 ->
    bit_sz ba / 32 + 1 - i <= Z.of_nat fuel ->
    4 * (bit_sz ba / 32 + 1) <= Z.of_nat (length (buf ba)) ->
    exists ba',
      randfill_loop fuel rand ba i = Ok ba' /\
      bit_sz ba' = bit_sz ba /\ length (buf ba') = length (buf ba) /\
      (Forall is_char (buf ba) -> Forall is_char (buf ba')) /\
      forall k, 0 <= k ->
        bit_of (buf ba') k =
        if (32 * i <=? k) && (k <? 32 * (bit_sz ba / 32 + 1))
        then Z.testbit (rand (k / 32)) (k mod 32) else bit_of (buf ba) k.
Proof.
  induction fuel as [| fuel IH]; intros ba i Hsz Hi Hfuel Hlen;
    cbn [randfill_loop];
    assert (Hn : 0 <= bit_sz ba / 32) by (apply Z.div_pos; lia);
    assert (Hn' : 32 * (bit_sz ba / 32) <= bit_sz ba)
      by (Z.div_mod_to_equations; lia);
    rewrite (to_size_small i), (to_size_small (bit_sz ba / 32 + 1))
      by (unfold is_size; lia).
  - destruct (Z.ltb_spec i (bit_sz ba / 32 + 1)); [lia |].
    exists ba. repeat (split; [auto; fail |]).
    intros k Hk. case_bools; try lia; reflexivity.
  - destruct (Z.ltb_spec i (bit_sz ba / 32 + 1)) as [Hlt | Hge].
    + destruct (store_le_spec 4 (buf ba) (4 * i) (rand i))
        as (b' & Hs & Hl & Hc & Hb); [lia | change (Z.of_nat 4) with 4; lia |].
      rewrite Hs. cbn [bind].
      rewrite (to_ssize_small (i + 1)) by (unfold is_ssize; lia).
      destruct (IH {| bit_sz := bit_sz ba; buf := b' |} (i + 1))
        as (ba' & Hr & Hsz' & Hl' & Hc' & Hb'); cbn [bit_sz buf];
        try lia.
      exists ba'. cbn [bit_sz buf] in *.
      split; [exact Hr |]. split; [exact Hsz' |]. split; [lia |].
      split; [auto |].
      intros k Hk. rewrite Hb' by lia. rewrite Hb by lia.
      change (Z.of_nat 4) with 4.
      pose proof (Z.div_mod k 32 ltac:(lia)) as Hdm.
      pose proof (Z.mod_pos_bound k 32 ltac:(lia)) as Hkm.
      case_bools; try lia; try reflexivity.
      replace (k / 32) with i by lia. f_equal. lia.
    + exists ba. repeat (split; [auto; fail |]).
      intros k Hk. case_bools; try lia; reflexivity.
Qed.

(** When the last word does not fit, the loop runs into the end of the
    buffer. *)
Lemma randfill_loop_overrun (rand : Z -> Z) (fuel : nat) :
  forall (ba : bitarray) (i : Z),
    0 <= bit_sz ba < 2 ^ 64 -> 0 <= i <= bit_sz ba / 32 ->
    bit_sz ba / 32 + 1 - i <= Z.of_nat fuel ->
    4 * (bit_sz ba / 32) <= Z.of_nat (length (buf ba)) ->
    Z.of_nat (length (buf ba)) < 4 * (bit_sz ba / 32 + 1) ->
    randfill_loop fuel rand ba i = Fault OutOfBounds.
Proof.
  induction fuel as [| fuel IH]; intros ba i Hsz Hi Hfuel Hlo Hhi; [lia |].
  cbn [randfill_loop].
  assert (Hn' : 32 * (bit_sz ba / 32) <= bit_sz ba)
    by (Z.div_mod_to_equations; lia).
  rewrite (to_size_small i), (to_size_small (bit_sz ba / 32 + 1))
    by (unfold is_size; lia).
  destruct (Z.ltb_spec i (bit_sz ba / 32 + 1)); [| lia].
  destruct (Z.eq_dec i (bit_sz ba / 32)) as [-> | Hne].
  - destruct (store_le 4 (buf ba) (4 * (bit_sz ba / 32)) (rand (bit_sz ba / 32)))
      as [b' | f] eqn:Hs; cbn [bind].
    + apply store_le_Ok_in_bounds in Hs; [| lia].
      change (Z.of_nat 4) with 4 in Hs. lia.
    + f_equal. exact (store_le_fault_kind _ _ _ _ _ Hs).
  - destruct (store_le_spec 4 (buf ba) (4 * i) (rand i))
      as (b' & Hs & Hl & _); [lia | change (Z.of_nat 4) with 4; lia |].
    rewrite Hs. cbn [bind].
    rewrite (to_ssize_small (i + 1)) by (unfold is_ssize; lia).
    apply IH; cbn [bit_sz buf]; rewrite ?Hl; lia.
Qed.

Lemma wf_buffer_words (ba : bitarray) :
  wf_bitarray ba ->
  4 * (bit_sz ba / 32) <= Z.of_nat (length (buf ba)) /\
  (4 * (bit_sz ba / 32 + 1) <= Z.of_nat (length (buf ba)) <->
   25 <= bit_sz ba mod 32).
Proof.
  intros (H0 & H1 & Hlen & _). rewrite Hlen.
  Z.div_mod_to_equations. lia.
Qed.

(** X17.  [bitarray_randfill] stores [bit_sz / 32 + 1] words of 32 bits.
    On an array whose buffer has [ceil (bit_sz / 8)] bytes, the last
    word ends past the buffer unless [bit_sz mod 32] is at least 25:
    for every other size, 0 and the multiples of 32 included, the call
    writes outside the buffer, whatever [rand] returns. *)
Theorem bitarray_randfill_overrun (rand : Z -> Z) (ba : bitarray) :
  wf_bitarray ba -> bit_sz ba mod 32 <= 24 ->
  bitarray_randfill rand ba = Fault OutOfBounds.
Proof.
  intros Hwf Hmod. destruct (wf_buffer_words ba Hwf) as [Hlo Hiff].
  pose proof Hwf as (H0 & H1 & _).
  assert (Hn : 0 <= bit_sz ba / 32) by (apply Z.div_pos; lia).
  unfold bitarray_randfill. apply randfill_loop_overrun; try lia.
Qed.

Lemma bitarray_randfill_overrun_witness :
  wf_bitarray example8 /\ bit_sz example8 mod 32 <= 24 /\
  bitarray_randfill (fun i => 1804289383 + i) example8 = Fault OutOfBounds.
Proof.
  assert (Hwf : wf_bitarray example8) by (apply wf_bitarrayb_sound; concrete).
  assert (H0 : bit_sz example8 mod 32 <= 24) by concrete.
  split; [exact Hwf |]. split; [exact H0 |].
  exact (bitarray_randfill_overrun (fun i => 1804289383 + i) example8 Hwf H0).
Defined.

(** X18.  When [bit_sz mod 32] is at least 25, [bitarray_randfill]
    returns a well-formed array of the same size in which the bit at
    every valid index [i] is bit [i mod 32] of the value returned by
    call [i / 32] of [rand]. *)
Theorem bitarray_randfill_fills (rand : Z -> Z) (ba : bitarray) :
  wf_bitarray ba -> 25 <= bit_sz ba mod 32 ->
  exists ba',
    bitarray_randfill rand ba = Ok ba' /\
    wf_bitarray ba' /\ bit_sz ba' = bit_sz ba /\
    forall i, 0 <= i < bit_sz ba ->
      bitarray_get ba' i = Ok (Z.testbit (rand (i / 32)) (i mod 32)).
Proof.
  intros Hwf Hmod. destruct (wf_buffer_words ba Hwf) as [Hlo Hiff].
  pose proof Hwf as (H0 & H1 & _).
  assert (Hn : 0 <= bit_sz ba / 32) by (apply Z.div_pos; lia).
  pose proof (proj2 Hiff Hmod) as Hfit.
  destruct (randfill_loop_spec rand (Z.to_nat (bit_sz ba / 32 + 1)) ba 0)
    as (ba' & Hr & Hsz & Hl & Hc & Hb); try lia.
  assert (Hwf' : wf_bitarray ba') by (eapply set_u64_wf; eassumption).
  exists ba'. split; [exact Hr |]. split; [exact Hwf' |]. split; [exact Hsz |].
  intros i Hi. rewrite bitarray_get_spec by (assumption || lia).
  rewrite Hb by lia. f_equal.
  case_bools; try lia; try reflexivity.
  exfalso. Z.div_mod_to_equations. lia.
Qed.

Lemma bitarray_randfill_fills_witness :
  wf_bitarray (bitarray_new 60) /\ 25 <= bit_sz (bitarray_new 60) mod 32 /\
  exists ba',
    bitarray_randfill (fun i => 1804289383 + i) (bitarray_new 60) = Ok ba' /\
    wf_bitarray ba' /\ bit_sz ba' = bit_sz (bitarray_new 60) /\
    forall i, 0 <= i < bit_sz (bitarray_new 60) ->
      bitarray_get ba' i =
      Ok (Z.testbit ((fun i => 1804289383 + i) (i / 32)) (i mod 32)).
Proof.
  assert (Hwf : wf_bitarray (bitarray_new 60))
    by (apply wf_bitarrayb_sound; concrete).
  assert (H0 : 25 <= bit_sz (bitarray_new 60) mod 32) by concrete.
  split; [exact Hwf |]. split; [exact H0 |].
  exact (bitarray_randfill_fills (fun i => 1804289383 + i) (bitarray_new 60)
           Hwf H0).
Defined.

(** ** Writing back a word *)

(** X19.  Writing back with [bitarray_set_u64] the word that
    [bitarray_get_u64] reads at an in-bounds index returns the array as
    it was. *)
Theorem bitarray_set_u64_of_get_u64 (ba : bitarray) (bit_index : Z) :
  wf_bitarray ba -> 0 <= bit_index ->
  u64_in_bounds (Z.of_nat (length (buf ba))) bit_index ->
  bind (bitarray_get_u64 ba bit_index)
       (fun w => bitarray_set_u64 ba bit_index w) = Ok ba.
Proof.
  intros Hwf Hidx Hin. apply u64_in_bounds_bits in Hin; [| exact Hidx].
  destruct (bitarray_get_u64_spec ba bit_index Hidx Hin) as (w & Hw & Hws & Hwb).
  rewrite Hw. cbn [bind].
  destruct (bitarray_set_u64_spec ba bit_index w Hidx Hin Hws)
    as (ba' & Hs & Hsz & Hl & Hc & Hb).
  rewrite Hs. f_equal.
  apply bitarray_ext; [assumption | eapply set_u64_wf; eassumption | assumption |].
  intros k Hk. rewrite Hb by lia.
  case_bools; try lia; try reflexivity.
  rewrite Hwb by lia. f_equal. lia.
Qed.

Lemma bitarray_set_u64_of_get_u64_witness :
  wf_bitarray example200 /\ 0 <= 131 /\
  u64_in_bounds (Z.of_nat (length (buf example200))) 131 /\
  bind (bitarray_get_u64 example200 131)
       (fun w => bitarray_set_u64 example200 131 w) = Ok example200.
Proof.
  assert (Hwf : wf_bitarray example200) by (apply wf_bitarrayb_sound; concrete).
  assert (H0 : 0 <= 131) by concrete.
  assert (H1 : u64_in_bounds (Z.of_nat (length (buf example200))) 131) by concrete.
  repeat (split; [assumption |]).
  exact (bitarray_set_u64_of_get_u64 example200 131 Hwf H0 H1).
Defined.

(** ** The rotation permutes the bits *)

Lemma read_from_seqZ (ba : bitarray) (n : nat) :
  forall i, read_from ba i n = bitarray_get ba <$> seqZ i (Z.of_nat n).
Proof.
  induction n as [| n IH]; intros i; [reflexivity |].
  rewrite seqZ_cons by lia. cbn [read_from fmap list_fmap].
  rewrite IH. do 3 f_equal; lia.
Qed.

Lemma to_bits_wf (ba : bitarray) :
  wf_bitarray ba ->
  to_bits ba = (fun k => Ok (bit_of (buf ba) k)) <$> seqZ 0 (bit_sz ba).
Proof.
  intros Hwf. pose proof Hwf as (H0 & _). unfold to_bits.
  rewrite read_from_seqZ, Z2Nat.id by lia.
  apply list_fmap_ext. intros i k Hk.
  assert (Hin : k ∈ seqZ 0 (bit_sz ba)) by (apply list_elem_of_lookup; eauto).
  apply elem_of_seqZ in Hin. apply bitarray_get_spec; [assumption | lia].
Qed.

(** A map of [0, n) onto itself with an inverse permutes the indices. *)
Lemma permute_seqZ (g h : Z -> Z) (n : Z) :
  (forall k, 0 <= k < n -> 0 <= g k < n /\ h (g k) = k) ->
  (forall k, 0 <= k < n -> 0 <= h k < n /\ g (h k) = k) ->
  Permutation (g <$> seqZ 0 n) (seqZ 0 n).
Proof.
  intros Hg Hh. apply NoDup_Permutation.
  - apply NoDup_fmap_2_strong; [| apply NoDup_seqZ].
    intros x y Hx Hy Heq. apply elem_of_seqZ in Hx, Hy.
    destruct (Hg x ltac:(lia)) as [_ <-], (Hg y ltac:(lia)) as [_ <-].
    rewrite Heq. reflexivity.
  - apply NoDup_seqZ.
  - intros x. rewrite list_elem_of_fmap. setoid_rewrite elem_of_seqZ. split.
    + intros (y & -> & Hy). destruct (Hg y ltac:(lia)) as [Hr _]. lia.
    + intros Hx. exists (h x). destruct (Hh x ltac:(lia)) as [Hr Hi].
      split; [symmetry; exact Hi | lia].
Qed.

(** X20.  [bitarray_rotate] only moves bits: the sequence of all the
    bits read with [bitarray_get] after the call is a permutation of
    the sequence before it, so the number of set bits is the same. *)
Theorem bitarray_rotate_permutes (ba : bitarray) (offset length r : Z) :
  wf_bitarray ba -> 0 <= offset -> 0 <= length ->
  offset + length <= bit_sz ba -> is_ssize r ->
  exists ba',
    bitarray_rotate ba offset length r = Ok ba' /\
    Permutation (to_bits ba') (to_bits ba).
Proof.
  intros Hwf Ho Hl Hend Hr.
  destruct (bitarray_rotate_spec ba offset length r Hwf Ho Hl Hend Hr)
    as (ba' & Hrot & Hwf' & Hsz & Hb).
  exists ba'. split; [exact Hrot |].
  rewrite (to_bits_wf ba Hwf), (to_bits_wf ba' Hwf'), Hsz.
  set (g := fun k => if (offset <=? k) && (k <? offset + length)
                     then offset + (k - offset - r) mod length else k).
  set (h := fun k => if (offset <=? k) && (k <? offset + length)
                     then offset + (k - offset + r) mod length else k).
  assert (Heq : (fun k => Ok (bit_of (buf ba') k)) <$> seqZ 0 (bit_sz ba) =
                (fun k => Ok (bit_of (buf ba) k)) <$> (g <$> seqZ 0 (bit_sz ba))).
  { rewrite <- list_fmap_compose. apply list_fmap_ext. intros i k Hk.
    assert (Hin : k ∈ seqZ 0 (bit_sz ba)) by (apply list_elem_of_lookup; eauto).
    apply elem_of_seqZ in Hin. cbn [compose]. f_equal.
    rewrite Hb by lia. unfold g. destruct ((offset <=? k) && (k <? offset + length));
      reflexivity. }
  rewrite Heq. apply fmap_Permutation.
  apply (permute_seqZ g h); intros k Hk; unfold g, h.
  - destruct (Z.leb_spec offset k), (Z.ltb_spec k (offset + length)); simpl;
      try (case_bools; lia).
    pose proof (Z.mod_pos_bound (k - offset - r) length ltac:(lia)) as Hm.
    case_bools; try lia. split; [lia |].
    replace (offset + (k - offset - r) mod length - offset + r)
      with ((k - offset - r) mod length + r) by lia.
    rewrite Zplus_mod_idemp_l.
    replace (k - offset - r + r) with (k - offset) by lia.
    rewrite Z.mod_small by lia. lia.
  - destruct (Z.leb_spec offset k), (Z.ltb_spec k (offset + length)); simpl;
      try (case_bools; lia).
    pose proof (Z.mod_pos_bound (k - offset + r) length ltac:(lia)) as Hm.
    case_bools; try lia. split; [lia |].
    replace (offset + (k - offset + r) mod length - offset - r)
      with ((k - offset + r) mod length - r) by lia.
    rewrite Zminus_mod_idemp_l.
    replace (k - offset + r - r) with (k - offset) by lia.
    rewrite Z.mod_small by lia. lia.
Qed.

Lemma bitarray_rotate_permutes_witness :
  wf_bitarray example200 /\ 0 <= 10 /\ 0 <= 180 /\
  10 + 180 <= bit_sz example200 /\ is_ssize (-47) /\
  exists ba',
    bitarray_rotate example200 10 180 (-47) = Ok ba' /\
    Permutation (to_bits ba') (to_bits example200).
Proof.
  assert (Hwf : wf_bitarray example200) by (apply wf_bitarrayb_sound; concrete).
  assert (H0 : 0 <= 10) by concrete.
  assert (H1 : 0 <= 180) by concrete.
  assert (H2 : 10 + 180 <= bit_sz example200) by concrete.
  assert (H3 : is_ssize (-47)) by concrete.
  repeat (split; [assumption |]).
  exact (bitarray_rotate_permutes example200 10 180 (-47) Hwf H0 H1 H2 H3).
Defined.
